(** * The chirp z-transform and its inverse

    A shallow embedding of [src/chirp_z_transform.py] and the verification of
    its specification.

    Complex arrays are sequences over a closed field [C] with exact
    arithmetic; the transform kernel [exp(-2*pi*i/n)] is a primitive [n]-th
    root of unity [omega n]; Python exceptions are values of [exn], carried
    by the [result] monad.  A second, store-passing model keeps NumPy's
    buffers, views and in-place updates. *)

From HB Require Import structures.
From mathcomp Require Import ssreflect ssrfun ssrbool eqtype ssrnat seq div.
From mathcomp Require Import choice fintype bigop prime binomial.
From mathcomp Require Import ssralg ssrnum ssrint poly ring_tactic field_tactic.
From mathcomp Require Import algC cyclotomic.
From Stdlib Require Import Lia.

Set Implicit Arguments.
Unset Strict Implicit.
Unset Printing Implicit Defensive.

Import GRing.Theory Num.Theory.
Local Open Scope ring_scope.

(** * Part I: the model *)

Declare Scope czt_scope.
Delimit Scope czt_scope with czt.

(** ** Exceptions and results *)

Section Results.

Variable C : Type.

(** The three [raise Exception(...)] sites carry the two values their message
    shows, as the conversions [%d] and [%f] of its format print them;
    [IndexError] is what indexing an array out of range raises. *)
Inductive exn : Type :=
  | LengthMismatch of nat & nat
  | ToeplitzInvariantViolation of C & C
  | DimensionMismatch of nat & nat
  | IndexError.

Inductive result (T : Type) : Type :=
  | Ok of T
  | Raise of exn.

Definition bind (T U : Type) (m : result T) (f : T -> result U) : result U :=
  match m with
  | Ok v => f v
  | Raise e => Raise U e
  end.

Definition is_ok (T : Type) (m : result T) : bool :=
  if m is Ok _ then true else false.

End Results.

Arguments LengthMismatch {C}.
Arguments DimensionMismatch {C}.
Arguments IndexError {C}.
Arguments Ok {C T}.
Arguments Raise {C T}.

Notation "x <- m ;; f" := (bind m (fun x => f))
  (at level 61, m at next level, right associativity) : czt_scope.
Local Open Scope czt_scope.

(** ** The numerical kernels *)

Section Model.

Variable C : numClosedFieldType.

(** [omega n] stands for [exp(-2*pi*i/n)], the kernel of an [n]-point FFT. *)
Variable omega : nat -> C.

Implicit Types (x c r X : seq C) (W A : C) (k n M N : nat).

(** Modelled from the spec: [scipy.fftpack.fft] is the external forward FFT
    primitive, [y[k] = sum_j x[j] * exp(-2*pi*i*j*k/n)] with [n = len(x)]. *)
Definition fft x : seq C :=
  mkseq (fun k => \sum_(0 <= j < size x) x`_j * omega (size x) ^+ (j * k))
        (size x).

(** Modelled from the spec: [scipy.fftpack.ifft] is the external inverse FFT
    primitive, [x[j] = (1/n) * sum_k y[k] * exp(2*pi*i*j*k/n)]. *)
Definition ifft x : seq C :=
  mkseq (fun j => (size x)%:R^-1 *
                  \sum_(0 <= k < size x) x`_k * omega (size x) ^- (j * k))
        (size x).

(** [a * b] on two arrays of one length. *)
Definition mul_seq (a b : seq C) : seq C := [seq p.1 * p.2 | p <- zip a b].

(** [np.pad(a, (before, after), 'constant')]. *)
Definition np_pad (a : seq C) (before after : nat) : seq C :=
  nseq before 0 ++ a ++ nseq after 0.

(** The dense product [T * x] of an [m]-by-[n] matrix given by its entries. *)
Definition dense_mul (m n : nat) (T : nat -> nat -> C) (x : seq C) : seq C :=
  mkseq (fun i => \sum_(0 <= j < n) T i j * x`_j) m.

(** Entry [(i, j)] of the circulant matrix generated by [c]: column [j] is [c]
    cyclically shifted down by [j] positions. *)
Definition circulant_entry (c : seq C) (i j : nat) : C :=
  c`_((i + (size c - j)) %% size c).

(** Entry [(i, j)] of the Toeplitz matrix with first row [r] and first column
    [c]. *)
Definition toeplitz_entry (r c : seq C) (i j : nat) : C :=
  if (j <= i)%N then c`_(i - j) else r`_(j - i).

(** [np.power(W, m/2.0)]: a complex base to a real exponent is
    [exp((m/2) * log W)] on the principal branch, the [m]-th power of the
    principal square root. *)
Definition power_half W (m : int) : C := sqrtC W ^ m.

(** What the conversion [%f] shows of an entry of a complex array: [float]
    of a [complex128] scalar keeps the real part and discards the imaginary
    part. *)
Definition format_f (z : C) : C := 'Re z.

Definition circulant_multiply c x : result C (seq C) :=
  if size x != size c then Raise (LengthMismatch (size x) (size c))
  else Ok (ifft (mul_seq (fft c) (fft x))).

(** [2 ** np.ceil(np.log2(m))]. *)
Definition next_pow2 (m : nat) : nat := (2 ^ up_log 2 m)%N.

Definition toeplitz_multiply_e r c x : result C (seq C) :=
  let N := size r in
  let M := size c in
  match r, c with
  | r0 :: _, c0 :: _ =>
      if r0 != c0
      then Raise (ToeplitzInvariantViolation (format_f r0) (format_f c0))
      else if size x != size r then Raise (LengthMismatch (size x) (size r))
      else
        let n := next_pow2 (M + N - 1) in
        let C' := np_pad c 0 (n - (M + N - 1)) ++ rev (behead r) in
        let X := np_pad x 0 (n - N) in
        Y <- circulant_multiply C' X ;;
        Ok (take M Y)
  | _, _ => Raise IndexError
  end.

Definition czt x M W A : result C (seq C) :=
  let N := size x in
  let X := mkseq (fun k => power_half W (k%:Z ^+ 2) * A ^- k * x`_k) N in
  let r := mkseq (fun k => power_half W (- (k%:Z ^+ 2))) N in
  let c := mkseq (fun k => power_half W (- (k%:Z ^+ 2))) M in
  X <- toeplitz_multiply_e r c X ;;
  Ok (mkseq (fun k => power_half W (k%:Z ^+ 2) * X`_k) M).

(** [p[0] = 1; p[k] = p[k-1] * (W**k - 1)]. *)
Fixpoint chirp_prod W k : C :=
  if k is k'.+1 then chirp_prod W k' * (W ^+ k - 1) else 1.

Definition iczt_p W n : seq C := mkseq (chirp_prod W) n.

(** The division is the field's.  NumPy's division by a zero [p[n-k-1] * p[k]]
    gives [nan]; the results on [iczt] that depend on [u] assume that no
    [p[k]] is zero, that is [W^j != 1] for [j = 1..n-1]. *)
Definition iczt_u W n : seq C :=
  let p := iczt_p W n in
  mkseq (fun k =>
           (-1) ^+ k *
           (power_half W (2 * k%:Z ^+ 2 - (2 * n%:Z - 1) * k%:Z
                          + n%:Z * (n%:Z - 1))
            / (p`_(n - k - 1) * p`_k))) n.

(** [np.pad(np.flip(u[1:]), (1, 0), 'constant')]. *)
Definition iczt_uhat (u : seq C) : seq C := np_pad (rev (behead u)) 1 0.

(** [np.pad(u[:1], (0, n-1), 'constant')]. *)
Definition iczt_util (u : seq C) n : seq C := np_pad (take 1 u) 0 (n - 1).

Definition iczt X N W A : result C (seq C) :=
  let M := size X in
  if M != N then Raise (DimensionMismatch (size X) N)
  else
    let n := N in
    let x := mkseq (fun k => power_half W (- (k%:Z ^+ 2)) * X`_k) n in
    (* p = np.empty(n); p[0] = 1 is out of range when n = 0 *)
    if n is 0 then Raise IndexError
    else
      let u := iczt_u W n in
      let z := nseq n (0 : C) in
      let uhat := iczt_uhat u in
      let util := iczt_util u n in
      t1 <- toeplitz_multiply_e uhat z x ;;
      xp <- toeplitz_multiply_e z uhat t1 ;;
      t2 <- toeplitz_multiply_e u util x ;;
      xpp <- toeplitz_multiply_e util u t2 ;;
      let x' := mkseq (fun k => (xpp`_k - xp`_k) / u`_0) n in
      Ok (mkseq (fun k => A ^+ k * power_half W (- (k%:Z ^+ 2)) * x'`_k) n).

End Model.

Local Open Scope czt_scope.

(** ** Arrays as references: the store-passing model

    NumPy arrays are references to buffers; slices and [np.flip] are views
    that share the buffer of the array they come from.  The heap is the list
    of buffers, an array is a buffer index with the positions it shows. *)

Declare Scope st_scope.
Delimit Scope st_scope with st.

Section Store.

Variable C : numClosedFieldType.

Definition heap : Type := seq (seq C).

Record ndarray : Type := NdArray { base : nat; idx : seq nat }.

Definition st (T : Type) : Type := heap -> result C (T * heap).

Definition ret (T : Type) (v : T) : st T := fun h => Ok (v, h).

Definition raise (T : Type) (e : exn C) : st T := fun _ => Raise e.

Definition bind_st (T U : Type) (m : st T) (f : T -> st U) : st U :=
  fun h => match m h with
           | Ok (v, h') => f v h'
           | Raise e => Raise e
           end.

Definition len (a : ndarray) : nat := size (idx a).

(** The elements an array shows in heap [h]. *)
Definition load (h : heap) (a : ndarray) : seq C :=
  [seq (nth [::] h (base a))`_p | p <- idx a].

(** A new array holding [v]: what [np.empty], [np.zeros], [np.pad],
    [np.concatenate], arithmetic on arrays and the FFT routines return. *)
Definition np_array (v : seq C) : st ndarray :=
  fun h => Ok (NdArray (size h) (iota 0 (size v)), rcons h v).

Definition read (a : ndarray) : st (seq C) := fun h => Ok (load h a, h).

(** [a[k]] *)
Definition getitem (a : ndarray) (k : nat) : st C :=
  fun h => if (k < len a)%N then Ok ((load h a)`_k, h) else Raise IndexError.

(** [a[k] = v] *)
Definition setitem (a : ndarray) (k : nat) (v : C) : st unit :=
  fun h =>
    if (k < len a)%N then
      Ok (tt, set_nth [::] h (base a)
                (set_nth 0 (nth [::] h (base a)) (nth 0%N (idx a) k) v))
    else Raise IndexError.

(** [a[k:]], [a[:k]] and [np.flip(a)] are views. *)
Definition slice_from (k : nat) (a : ndarray) : ndarray :=
  NdArray (base a) (drop k (idx a)).

Definition slice_to (k : nat) (a : ndarray) : ndarray :=
  NdArray (base a) (take k (idx a)).

Definition np_flip (a : ndarray) : ndarray := NdArray (base a) (rev (idx a)).

(** Every array living in [h] shows the same elements in [h']. *)
Definition unchanged (h h' : heap) : Prop :=
  forall a, (base a < size h)%N -> load h' a = load h a.

(** The buffer of [a] does not exist in [h]. *)
Definition fresh (h : heap) (a : ndarray) : Prop := (size h <= base a)%N.

(** [for k in ks: body k] *)
Fixpoint for_range (ks : seq nat) (body : nat -> st unit) : st unit :=
  if ks is k :: ks' then bind_st (body k) (fun _ => for_range ks' body)
  else ret tt.

End Store.

Arguments ret {C T}.
Arguments raise {C T}.
Arguments np_array : simpl never.
Arguments read : simpl never.
Arguments getitem : simpl never.
Arguments setitem : simpl never.
Arguments load : simpl never.
Arguments for_range : simpl never.

Notation "x <- m ;; f" := (bind_st m (fun x => f))
  (at level 61, m at next level, right associativity) : st_scope.
Notation "m ;; f" := (bind_st m (fun _ => f))
  (at level 61, right associativity) : st_scope.

Local Open Scope st_scope.

Section StatefulModel.

Variable C : numClosedFieldType.
Variable omega : nat -> C.

(** What an uninitialised [np.empty] buffer holds. *)
Variable junk : nat -> C.

Implicit Types (a r c x X : ndarray) (W A : C) (k n M N : nat).

Definition np_empty n : st C ndarray := np_array (mkseq junk n).

Definition np_zeros n : st C ndarray := np_array (nseq n 0).

(** [np.pad(a, (before, after), 'constant')] *)
Definition np_pad_st a (before after : nat) : st C ndarray :=
  v <- read a ;; np_array (np_pad v before after).

(** [np.concatenate((a, b))] *)
Definition np_concatenate a b : st C ndarray :=
  va <- read a ;; vb <- read b ;; np_array (va ++ vb).

Definition fft_st a : st C ndarray :=
  v <- read a ;; np_array (fft omega v).

Definition ifft_st a : st C ndarray :=
  v <- read a ;; np_array (ifft omega v).

Definition mul_st a b : st C ndarray :=
  va <- read a ;; vb <- read b ;; np_array (mul_seq va vb).

Definition circulant_multiply_st c x : st C ndarray :=
  if len x != len c then raise (LengthMismatch (len x) (len c))
  else
    fc <- fft_st c ;;
    fx <- fft_st x ;;
    p <- mul_st fc fx ;;
    ifft_st p.

Definition toeplitz_multiply_e_st r c x : st C ndarray :=
  let N := len r in
  let M := len c in
  r0 <- getitem r 0 ;;
  c0 <- getitem c 0 ;;
  if r0 != c0
  then raise (ToeplitzInvariantViolation (format_f r0) (format_f c0))
  else if len x != len r then raise (LengthMismatch (len x) (len r))
  else
    let n := next_pow2 (M + N - 1) in
    pc <- np_pad_st c 0 (n - (M + N - 1)) ;;
    C' <- np_concatenate pc (np_flip (slice_from 1 r)) ;;
    X <- np_pad_st x 0 (n - N) ;;
    Y <- circulant_multiply_st C' X ;;
    ret (slice_to M Y).

Definition czt_st x M W A : st C ndarray :=
  let N := len x in
  X <- np_empty N ;;
  r <- np_empty N ;;
  c <- np_empty M ;;
  for_range (iota 0 N) (fun k =>
    xk <- getitem x k ;;
    setitem X k (power_half W (k%:Z ^+ 2) * A ^- k * xk) ;;
    setitem r k (power_half W (- (k%:Z ^+ 2)))) ;;
  for_range (iota 0 M) (fun k =>
    setitem c k (power_half W (- (k%:Z ^+ 2)))) ;;
  X <- toeplitz_multiply_e_st r c X ;;
  for_range (iota 0 M) (fun k =>
    Xk <- getitem X k ;;
    setitem X k (power_half W (k%:Z ^+ 2) * Xk)) ;;
  ret X.

Definition iczt_st X N W A : st C ndarray :=
  let M := len X in
  if M != N then raise (DimensionMismatch (len X) N)
  else
    let n := N in
    x <- np_empty n ;;
    for_range (iota 0 n) (fun k =>
      Xk <- getitem X k ;;
      setitem x k (power_half W (- (k%:Z ^+ 2)) * Xk)) ;;
    p <- np_empty n ;;
    setitem p 0 1 ;;
    for_range (iota 1 (n - 1)) (fun k =>
      pk <- getitem p (k - 1) ;;
      setitem p k (pk * (W ^+ k - 1))) ;;
    u <- np_empty n ;;
    for_range (iota 0 n) (fun k =>
      pa <- getitem p (n - k - 1) ;;
      pb <- getitem p k ;;
      setitem u k
        ((-1) ^+ k *
         (power_half W (2 * k%:Z ^+ 2 - (2 * n%:Z - 1) * k%:Z
                        + n%:Z * (n%:Z - 1))
          / (pa * pb)))) ;;
    z <- np_zeros n ;;
    uhat <- np_pad_st (np_flip (slice_from 1 u)) 1 0 ;;
    util <- np_pad_st (slice_to 1 u) 0 (n - 1) ;;
    t1 <- toeplitz_multiply_e_st uhat z x ;;
    xp <- toeplitz_multiply_e_st z uhat t1 ;;
    t2 <- toeplitz_multiply_e_st u util x ;;
    xpp <- toeplitz_multiply_e_st util u t2 ;;
    for_range (iota 0 n) (fun k =>
      a <- getitem xpp k ;;
      b <- getitem xp k ;;
      u0 <- getitem u 0 ;;
      setitem x k ((a - b) / u0)) ;;
    for_range (iota 0 n) (fun k =>
      xk <- getitem x k ;;
      setitem x k (A ^+ k * power_half W (- (k%:Z ^+ 2)) * xk)) ;;
    ret x.

End StatefulModel.

(** ** Buffers the operations allocate *)

Section Buffers.

Variable C : numClosedFieldType.
Variable omega : nat -> C.

(** Filling a buffer from the left. *)
Definition fill (f : nat -> C) k s : seq C := mkseq f k ++ drop k s.

(** The buffers a call of [circulant_multiply] appends to the heap. *)
Definition circulant_bufs (c x : seq C) : heap C :=
  [:: fft omega c; fft omega x; mul_seq (fft omega c) (fft omega x);
      ifft omega (mul_seq (fft omega c) (fft omega x))].

(** The buffers a call of [toeplitz_multiply_e] appends to the heap. *)
Definition toeplitz_bufs (r c x : seq C) : heap C :=
  let n := next_pow2 (size c + size r - 1) in
  let pc := np_pad c 0 (n - (size c + size r - 1)) in
  let C' := pc ++ rev (behead r) in
  let X := np_pad x 0 (n - size r) in
  [:: pc; C'; X] ++ circulant_bufs C' X.

End Buffers.

Local Close Scope st_scope.

(** ** Gaussian binomial coefficients *)

Section GaussBinomialDef.

Variable F : numClosedFieldType.
Variable q : F.

Fixpoint qbin (n k : nat) : F :=
  match n, k with
  | _, 0%N => 1
  | 0%N, _.+1 => 0
  | n'.+1, k'.+1 => qbin n' k' + q ^+ k'.+1 * qbin n' k'.+1
  end.

End GaussBinomialDef.

(** ** The Gohberg-Semencul formula

    For a Toeplitz matrix [T] of order [N+1] whose inverse has first column
    [x] and last column the reversal of [x], the matrix
    [(L(x) L(x)^T - L(xhat) L(xhat)^T) / x 0] is a right inverse of [T], where
    [L(a)] is the lower triangular Toeplitz matrix with first column [a] and
    [xhat = (0, x N, ..., x 1)]. *)

Section GsDefs.

Variable F : fieldType.
Variable N : nat.
Variable x : nat -> F.

Definition lower (a : nat -> F) (i k : nat) : F :=
  if (k <= i)%N then a (i - k)%N else 0.

Definition xhat (k : nat) : F := if k is 0 then 0 else x (N.+1 - k)%N.

Definition gs_term (i j k : nat) : F :=
  lower x i k * lower x j k - lower xhat i k * lower xhat j k.

Definition gs (i j : nat) : F :=
  (x 0%N)^-1 * \sum_(0 <= k < N.+1) gs_term i j k.

(** The product [T * G] of a matrix [T] with the Gohberg-Semencul matrix. *)
Definition tg (T : nat -> nat -> F) (i j : nat) : F :=
  \sum_(0 <= l < N.+1) T i l * gs l j.

End GsDefs.

(** ** A concrete instance: the algebraic numbers *)

Definition omegaC (n : nat) : algC :=
  sval (C_prim_root_exists (ltn0Sn n.-1)).

(** The Toeplitz entries as the specification words them. *)
Definition spec_toeplitz_entry (C : numClosedFieldType) (r c : seq C)
    (i j : nat) : C :=
  if (j <= i)%N then c`_i else r`_(j - i).

(** Linear arithmetic on [nat] stated with ssrnat's boolean relations. *)
Ltac nat_hyps :=
  repeat match goal with
  | H : is_true (_ && _) |- _ => case/andP: H => ? ?
  | H : is_true (_ <= _)%N |- _ => move/leP: H
  | H : is_true (_ < _)%N |- _ => move/ltP: H
  | H : is_true (_ == _ :> nat) |- _ => move/eqP: H
  | H : (_ <= _)%N = false |- _ => move/negbT: H; rewrite -ltnNge => /ltP
  | H : (_ < _)%N = false |- _ => move/negbT: H; rewrite -leqNgt => /leP
  | H : is_true (~~ (_ <= _)%N) |- _ => move: H; rewrite -ltnNge => /ltP
  | H : is_true (~~ (_ < _)%N) |- _ => move: H; rewrite -leqNgt => /leP
  | H : @eq nat _ _ |- _ => move: H
  | H : @eq ?T ?a ?b |- _ =>
      unify T nat; move: (H : @eq nat a b); clear H
  end.

Ltac nat_goal :=
  match goal with
  | |- is_true (_ <= _)%N => apply/leP
  | |- is_true (_ < _)%N => apply/ltP
  | |- is_true (_ == _ :> nat) => apply/eqP
  | |- is_true (~~ (_ <= _)%N) => rewrite -ltnNge; apply/ltP
  | |- is_true (~~ (_ < _)%N) => rewrite -leqNgt; apply/leP
  | |- _ => idtac
  end.

Ltac nat_atoms :=
  repeat match goal with
  | |- context [@size ?T ?s] => move: (@size T s) => ?
  end.

Ltac nat_lia :=
  nat_goal; nat_hyps; nat_atoms;
  rewrite -?subn1 -?plusE -?minusE -?multE; lia.

(** * Part II: the theory *)

(** ** Sums of roots of unity and the convolution theorem *)

Section FourierTheory.

Variable C : numClosedFieldType.
Variable omega : nat -> C.
Hypothesis omega_prim : forall n, (0 < n)%N -> n.-primitive_root (omega n).

Implicit Types (x c : seq C) (i j k n d : nat).

Lemma size_fft x : size (fft omega x) = size x.
Proof. by rewrite size_mkseq. Qed.

Lemma size_ifft x : size (ifft omega x) = size x.
Proof. by rewrite size_mkseq. Qed.

Lemma size_mul_seq (a b : seq C) : size (mul_seq a b) = minn (size a) (size b).
Proof. by rewrite size_map size_zip. Qed.

Lemma nth_mul_seq (a b : seq C) i :
  size a = size b -> (mul_seq a b)`_i = a`_i * b`_i.
Proof.
move=> sab; case: (ltnP i (size a)) => ia.
  by rewrite (nth_map (0, 0)) ?size_zip -?sab ?minnn // nth_zip.
by rewrite !nth_default ?mulr0 // ?size_mul_seq -?sab ?minnn.
Qed.

Lemma nth_fft x k :
  (k < size x)%N ->
  (fft omega x)`_k = \sum_(0 <= j < size x) x`_j * omega (size x) ^+ (j * k).
Proof. by move=> kx; rewrite nth_mkseq. Qed.

Lemma nth_ifft x j :
  (j < size x)%N ->
  (ifft omega x)`_j =
  (size x)%:R^-1 * \sum_(0 <= k < size x) x`_k * omega (size x) ^- (j * k).
Proof. by move=> jx; rewrite nth_mkseq. Qed.

(** Orthogonality: the powers of a non-trivial root of unity sum to zero. *)
Lemma sum_omega n d :
  (0 < n)%N ->
  \sum_(0 <= k < n) omega n ^+ (d * k) = if (n %| d)%N then n%:R else 0.
Proof.
move=> n0; have zP := omega_prim n0.
case: ifPn => [nd|nd].
  rewrite (eq_bigr (fun=> 1)) ?sumr_const_nat ?subn0 // => k _.
  by rewrite exprM; move: nd; rewrite (prim_order_dvd zP) => /eqP->; rewrite expr1n.
have z1 : omega n ^+ d - 1 != 0 by rewrite subr_eq0 -(prim_order_dvd zP).
apply: (mulfI z1); rewrite mulr0 big_mkord.
under eq_bigr => k _ do rewrite exprM.
by rewrite -subrX1 -exprM mulnC exprM (prim_expr_order zP) expr1n subrr.
Qed.

Lemma omega_neq0 n : (0 < n)%N -> omega n != 0.
Proof. by move=> n0; rewrite (prim_root_eq0 (omega_prim n0)) -lt0n. Qed.

Lemma omega_invX n i k :
  (0 < n)%N -> (i <= n)%N -> omega n ^- (i * k) = omega n ^+ ((n - i) * k).
Proof.
move=> n0 ile; apply: (mulfI (expf_neq0 (i * k) (omega_neq0 n0))).
rewrite divff ?expf_neq0 ?omega_neq0 // -exprD -mulnDl subnKC //.
by rewrite exprM (prim_expr_order (omega_prim n0)) expr1n.
Qed.

Lemma circ_index n i b a :
  (i < n)%N -> (b < n)%N -> (a < n)%N ->
  (n %| a + b + (n - i))%N = (a == (i + (n - b)) %% n)%N.
Proof.
move=> ilt blt alt; rewrite -[a in RHS](modn_small alt).
rewrite -(eqn_modDr (b + (n - i))) [(b + _)%N]addnC addnACA.
rewrite subnKC ?subnK 1?ltnW // modnDl modnn.
by rewrite [(n - i + b)%N]addnC addnA.
Qed.

Lemma sum_circ_pick n i b (F : nat -> C) :
  (i < n)%N -> (b < n)%N ->
  \sum_(0 <= a < n) (if (n %| a + b + (n - i))%N then F a else 0) =
  F ((i + (n - b)) %% n)%N.
Proof.
move=> ilt blt; have n0 : (0 < n)%N by apply: leq_ltn_trans ilt.
rewrite big_mkord -big_mkcond /=.
rewrite (big_pred1 (Ordinal (ltn_pmod (i + (n - b)) n0))) // => a /=.
by rewrite circ_index.
Qed.

(** The convolution theorem: transforming, multiplying pointwise and
    transforming back is cyclic convolution. *)
Lemma nth_cyclic_convolution c x i :
  size x = size c -> (i < size c)%N ->
  (ifft omega (mul_seq (fft omega c) (fft omega x)))`_i =
  \sum_(0 <= j < size c) circulant_entry c i j * x`_j.
Proof.
move=> sxc ilt; set n := size c; set z := omega n.
have n0 : (0 < n)%N by apply: leq_ltn_trans ilt.
have sm : size (mul_seq (fft omega c) (fft omega x)) = n.
  by rewrite size_mul_seq !size_fft sxc minnn.
rewrite nth_ifft sm // -/z.
have -> : \sum_(0 <= k < n)
            (mul_seq (fft omega c) (fft omega x))`_k * z ^- (i * k) =
          \sum_(0 <= a < n) \sum_(0 <= b < n)
            c`_a * x`_b * \sum_(0 <= k < n) z ^+ ((a + b + (n - i)) * k).
  transitivity (\sum_(0 <= k < n) \sum_(0 <= a < n) \sum_(0 <= b < n)
                  c`_a * x`_b * z ^+ ((a + b + (n - i)) * k)).
    apply: eq_big_nat => k /andP[_ klt].
    rewrite nth_mul_seq ?size_fft // !nth_fft ?sxc // -/n -/z.
    rewrite (omega_invX _ n0 (ltnW ilt)) big_distrlr /= big_distrl /=.
    apply: eq_bigr => a _; rewrite big_distrl /=; apply: eq_bigr => b _.
    by rewrite mulrACA -mulrA -!exprD -!mulnDl.
  rewrite exchange_big /=; apply: eq_bigr => a _.
  rewrite exchange_big /=; apply: eq_bigr => b _.
  by rewrite big_distrr.
under eq_bigr => a _ do under eq_bigr => b _ do
  rewrite sum_omega //.
rewrite exchange_big /= big_distrr /=; apply: eq_big_nat => b /andP[_ blt].
rewrite /circulant_entry -/n -(sum_circ_pick (fun a => c`_a) ilt blt).
rewrite !big_distrl big_distrr /=.
apply: eq_bigr => a _; case: ifP => _; last by rewrite !(mulr0, mul0r).
by rewrite mulrC -mulrA mulfV ?mulr1 // pnatr_eq0 -lt0n.
Qed.

Lemma circulant_multiplyE c x :
  circulant_multiply omega c x =
  if size x != size c then Raise (LengthMismatch (size x) (size c))
  else Ok (ifft omega (mul_seq (fft omega c) (fft omega x))).
Proof. by []. Qed.

Lemma circulant_multiply_dense c x :
  size x = size c ->
  circulant_multiply omega c x =
  Ok (dense_mul (size c) (size c) (circulant_entry c) x).
Proof.
move=> sxc; rewrite /circulant_multiply sxc eqxx /=; congr Ok.
apply: (@eq_from_nth _ 0) => [|i].
  by rewrite size_ifft size_mul_seq !size_fft sxc minnn size_mkseq.
rewrite size_ifft size_mul_seq !size_fft sxc minnn => ilt.
by rewrite nth_cyclic_convolution // nth_mkseq.
Qed.

End FourierTheory.

Section ToeplitzTheory.

Variable C : numClosedFieldType.
Variable omega : nat -> C.
Hypothesis omega_prim : forall n, (0 < n)%N -> n.-primitive_root (omega n).

Implicit Types (x c r : seq C) (i j k n m : nat).

Lemma next_pow2_ge m : (m <= next_pow2 m)%N.
Proof. exact: up_logP. Qed.

Lemma next_pow2_gt0 m : (0 < next_pow2 m)%N.
Proof. by rewrite expn_gt0. Qed.

Lemma np_pad0 x k : np_pad x 0 k = x ++ nseq k 0.
Proof. by []. Qed.

Lemma size_np_pad x (b e : nat) : size (np_pad x b e) = (b + size x + e)%N.
Proof. by rewrite /np_pad !size_cat !size_nseq addnA. Qed.

Lemma nth_pad_right x k i : (x ++ nseq k 0)`_i = x`_i.
Proof.
rewrite nth_cat; case: ltnP => // xi.
by rewrite nth_nseq if_same nth_default.
Qed.

Lemma size_dense_mul m n (T : nat -> nat -> C) x :
  size (dense_mul m n T x) = m.
Proof. by rewrite size_mkseq. Qed.

Lemma nth_dense_mul m n (T : nat -> nat -> C) x i :
  (i < m)%N -> (dense_mul m n T x)`_i = \sum_(0 <= j < n) T i j * x`_j.
Proof. by move=> im; rewrite nth_mkseq. Qed.

(** Where the entries of the circulant generator built by
    [toeplitz_multiply_e] come from. *)
Lemma embedding_entry r c n i j :
  (0 < size r)%N -> (size c + size r - 1 <= n)%N ->
  (i < size c)%N -> (j < size r)%N ->
  circulant_entry ((c ++ nseq (n - (size c + size r - 1)) 0)
                     ++ rev (behead r)) i j =
  toeplitz_entry r c i j.
Proof.
move=> r0 le_n ic jr; rewrite /circulant_entry /toeplitz_entry.
set pad := nseq _ _; set tl := rev _.
have sz : size ((c ++ pad) ++ tl) = n.
  by rewrite !size_cat size_nseq size_rev size_behead; nat_lia.
rewrite sz; case: leqP => ji.
  have -> : ((i + (n - j)) %% n = i - j)%N.
    have -> : (i + (n - j) = i - j + n)%N by nat_lia.
    rewrite modnDr modn_small //.
    by nat_lia.
  by rewrite -catA nth_cat ifT //; nat_lia.
rewrite modn_small; first by nat_lia.
rewrite nth_cat size_cat size_nseq ifN; first by nat_lia.
rewrite /tl nth_rev ?size_behead; first by nat_lia.
rewrite nth_behead; congr (r`__); nat_lia.
Qed.

Lemma toeplitz_multiply_eE r c x :
  (0 < size r)%N -> (0 < size c)%N ->
  toeplitz_multiply_e omega r c x =
  if r`_0 != c`_0
  then Raise (ToeplitzInvariantViolation (format_f r`_0) (format_f c`_0))
  else if size x != size r then Raise (LengthMismatch (size x) (size r))
  else
    let n := next_pow2 (size c + size r - 1) in
    Y <- circulant_multiply omega
           (np_pad c 0 (n - (size c + size r - 1)) ++ rev (behead r))
           (np_pad x 0 (n - size r)) ;;
    Ok (take (size c) Y).
Proof. by case: r => [|r0 r'] //; case: c => [|c0 c']. Qed.

Lemma toeplitz_multiply_e_dense r c x :
  (0 < size r)%N -> (0 < size c)%N -> r`_0 = c`_0 -> size x = size r ->
  toeplitz_multiply_e omega r c x =
  Ok (dense_mul (size c) (size r) (toeplitz_entry r c) x).
Proof.
move=> r0 c0 rc sx; rewrite toeplitz_multiply_eE // rc eqxx sx eqxx /= !np_pad0.
set n := next_pow2 _.
have le_n : (size c + size r - 1 <= n)%N by apply: next_pow2_ge.
have sC : size ((c ++ nseq (n - (size c + size r - 1)) 0) ++ rev (behead r)) = n.
  by rewrite !size_cat size_nseq size_rev size_behead; nat_lia.
have sX : size (x ++ nseq (n - size r) 0) = n.
  by rewrite size_cat size_nseq sx; nat_lia.
rewrite (circulant_multiply_dense omega_prim) /=; first by rewrite sC sX.
have cn : (size c <= n)%N by nat_lia.
congr Ok; apply: (@eq_from_nth _ 0) => [|i].
  by rewrite size_takel !size_dense_mul ?sC.
rewrite size_takel ?size_dense_mul ?sC // => ic.
rewrite nth_take // !nth_dense_mul //; first by nat_lia.
rewrite (@big_cat_nat _ _ _ (size r)) //=; first by nat_lia.
rewrite [X in _ + X]big_nat_cond [X in _ + X]big1 ?addr0
  => [j /andP[/andP[rj _] _]|].
  by rewrite nth_cat sx ltnNge rj /= nth_nseq if_same mulr0.
apply: eq_big_nat => j /andP[_ jr]; rewrite nth_pad_right.
by rewrite embedding_entry.
Qed.

End ToeplitzTheory.

Section ChirpTheory.

Variable C : numClosedFieldType.
Variable omega : nat -> C.
Hypothesis omega_prim : forall n, (0 < n)%N -> n.-primitive_root (omega n).

Implicit Types (x c r : seq C) (W A : C) (i j k n m M N : nat).

Lemma power_halfD W (a b : int) :
  W != 0 -> power_half W (a + b) = power_half W a * power_half W b.
Proof. by move=> W0; rewrite /power_half expfzDr // sqrtC_eq0. Qed.

Lemma power_half0 W : power_half W 0 = 1.
Proof. by rewrite /power_half expr0z. Qed.

Lemma power_half_neq0 W (a : int) : W != 0 -> power_half W a != 0.
Proof. by move=> W0; rewrite /power_half expfz_neq0 // sqrtC_eq0. Qed.

Lemma power_half_even W (a : int) : power_half W (2 * a) = W ^ a.
Proof. by rewrite /power_half -exprz_exp -exprnP sqrtCK. Qed.

Lemma power_halfN W (a : int) :
  W != 0 -> power_half W (- a) = (power_half W a)^-1.
Proof. by move=> W0; rewrite /power_half -exprz_inv expfV. Qed.

(** The chirp substitution [2jk = k^2 - (k-j)^2 + j^2]. *)
Lemma chirp_exponent W (j k : nat) :
  W != 0 ->
  power_half W (k%:Z ^+ 2) *
    (power_half W (- (k%:Z - j%:Z) ^+ 2) * power_half W (j%:Z ^+ 2)) =
  W ^+ (j * k).
Proof.
move=> W0; rewrite -!power_halfD // -[RHS]/(W ^ Posz (j * k)) -power_half_even.
congr power_half.
by rewrite PoszM; ring.
Qed.

Local Notation chirp W := (fun k : nat => power_half W (- (k%:Z ^+ 2))).

Lemma chirp_entry W N M k j :
  (k < M)%N -> (j < N)%N ->
  toeplitz_entry (mkseq (chirp W) N) (mkseq (chirp W) M) k j =
  power_half W (- (k%:Z - j%:Z) ^+ 2).
Proof.
move=> kM jN; rewrite /toeplitz_entry; case: leqP => jk.
  by rewrite nth_mkseq ?(leq_ltn_trans (leq_subr _ _)) // -subzn.
rewrite nth_mkseq ?(leq_ltn_trans (leq_subr _ _)) // -subzn; first exact: ltnW.
by congr power_half; ring.
Qed.

Lemma czt_dense x M W A :
  (0 < size x)%N -> (0 < M)%N ->
  czt omega x M W A =
  Ok (mkseq (fun k =>
        power_half W (k%:Z ^+ 2) *
        \sum_(0 <= j < size x)
          power_half W (- (k%:Z - j%:Z) ^+ 2) *
          (power_half W (j%:Z ^+ 2) * A ^- j * x`_j)) M).
Proof.
move=> N0 M0; rewrite /czt (toeplitz_multiply_e_dense omega_prim);
  rewrite ?size_mkseq ?nth_mkseq //.
congr Ok; apply: (@eq_from_nth _ 0); rewrite !size_mkseq // => k kM.
rewrite [LHS]nth_mkseq // [RHS]nth_mkseq // nth_dense_mul //; congr (_ * _).
apply: eq_big_nat => j /andP[_ jN].
by rewrite chirp_entry // nth_mkseq.
Qed.

(** The Bluestein decomposition computes the chirp z-transform. *)
Lemma czt_direct x M W A :
  (0 < size x)%N -> (0 < M)%N -> W != 0 ->
  czt omega x M W A =
  Ok (mkseq (fun k => \sum_(0 <= j < size x) x`_j * A ^- j * W ^+ (j * k)) M).
Proof.
move=> N0 M0 W0; rewrite czt_dense //; congr Ok.
apply: (@eq_from_nth _ 0); rewrite !size_mkseq // => k kM.
rewrite !nth_mkseq // big_distrr /=; apply: eq_bigr => j _.
rewrite -(chirp_exponent j k W0); set a := power_half _ _; set b := power_half _ _.
by set c := power_half _ _; ring.
Qed.

End ChirpTheory.

(** ** Gaussian binomial coefficients and the q-binomial theorem *)

Section GaussBinomial.

Variable F : numClosedFieldType.
Variable q : F.

Local Notation qbin := (qbin q).

Lemma qbin0 n : qbin n 0 = 1.
Proof. by case: n. Qed.

Lemma qbinS n k : qbin n.+1 k.+1 = qbin n k + q ^+ k.+1 * qbin n k.+1.
Proof. by []. Qed.

Lemma qbin_small n k : (n < k)%N -> qbin n k = 0.
Proof.
elim: n k => [|n IH] [|k] //; rewrite ltnS => nk.
by rewrite qbinS !IH ?mulr0 ?addr0 // ltnW.
Qed.

Lemma gauss_binomial n (y : F) :
  \prod_(0 <= j < n) (1 + y * q ^+ j) =
  \sum_(0 <= k < n.+1) q ^+ 'C(k, 2) * qbin n k * y ^+ k.
Proof.
elim: n y => [|n IH] y.
  by rewrite big_nil big_nat1 bin0n qbin0 !expr0 !mulr1.
rewrite big_nat_recl // expr0 mulr1.
under eq_bigr => j _ do rewrite exprS mulrA.
rewrite IH mulrDl mul1r.
rewrite [in RHS]big_nat_recl // bin0n qbin0 !expr0 !mulr1.
rewrite [X in X + _]big_nat_recl // bin0n qbin0 !expr0 !mulr1 -addrA; congr (_ + _).
under [in RHS]eq_bigr => k _ do rewrite qbinS mulrDr mulrDl.
rewrite big_split /= addrC; congr (_ + _).
  rewrite big_distrr /=; apply: eq_bigr => k _.
  by rewrite binS bin1 exprD exprMn exprS; ring.
rewrite [RHS]big_nat_recr //= [qbin n n.+1]qbin_small // !(mulr0, mul0r) addr0.
apply: eq_bigr => k _.
by rewrite exprMn; ring.
Qed.

(** The chirp products [p] of [iczt] turn Gaussian binomials into
    quotients. *)
Lemma chirp_prodS k : chirp_prod q k.+1 = chirp_prod q k * (q ^+ k.+1 - 1).
Proof. by []. Qed.

Lemma qbin_chirp_prod n k :
  (k <= n)%N ->
  qbin n k * (chirp_prod q k * chirp_prod q (n - k)) = chirp_prod q n.
Proof.
elim: n k => [|n IH] [|k] //.
- by rewrite qbin0 !mul1r.
- by rewrite qbin0 subn0 !mul1r.
rewrite ltnS subSS leq_eqVlt => /predU1P[->|kn].
  rewrite qbinS (@qbin_small n n.+1) // mulr0 addr0 subnn !chirp_prodS.
  by rewrite -[X in _ = X * _](IH n (leqnn n)) subnn; ring.
have A := IH k (ltnW kn); have B := IH k.+1 kn.
have E : q ^+ n.+1 = q ^+ k.+1 * q ^+ (n - k).
  by rewrite -exprD addSn subnKC // ltnW.
move: A B; rewrite qbinS !chirp_prodS E -(subnSK kn) chirp_prodS.
move: (qbin n k) (qbin n k.+1) (chirp_prod q k) (chirp_prod q (n - k.+1))
      (q ^+ k.+1) (q ^+ (n - k.+1).+1) (chirp_prod q n) => a b ck cm Q1 Q2 cn A B.
transitivity ((Q1 - 1) * (a * (ck * (cm * (Q2 - 1)))) +
              Q1 * (Q2 - 1) * (b * (ck * (Q1 - 1) * cm))); first by ring.
by rewrite A B; ring.
Qed.

End GaussBinomial.

(** ** The inverse kernel [u] is the first column of the inverse chirp matrix *)

Section KernelTheory.

Variable C : numClosedFieldType.
Variable W : C.
Hypothesis W0 : W != 0.

Implicit Types (i j k n N : nat).

Lemma chirp_prod_neq0 n k :
  (forall j, (0 < j < n)%N -> W ^+ j != 1) -> (k < n)%N ->
  chirp_prod W k != 0.
Proof.
move=> W1; elim: k => [|k IH] kn; first by rewrite /= oner_eq0.
by rewrite chirp_prodS mulf_neq0 ?IH 1?ltnW // subr_eq0 W1.
Qed.

Lemma chirp_prod_big N :
  chirp_prod W N = \prod_(0 <= j < N) (W ^+ j.+1 - 1).
Proof.
by elim: N => [|N IH]; rewrite ?big_nil // big_nat_recr //= -IH.
Qed.

Lemma power_half_bin2 k :
  W ^+ 'C(k, 2) = power_half W (k%:Z ^+ 2 - k%:Z).
Proof.
elim: k => [|k IH]; first by rewrite bin0n expr0 expr0n /= subr0 power_half0.
rewrite binS bin1 exprD IH -[W ^+ k]/(W ^ Posz k) -power_half_even.
by rewrite -power_halfD //; congr power_half; rewrite -natr1; ring.
Qed.

Lemma prod_inv_powers N :
  \prod_(0 <= j < N) W ^- j.+1 = power_half W (- (N%:Z ^+ 2 + N%:Z)).
Proof.
elim: N => [|N IH]; first by rewrite big_nil expr0n /= addr0 oppr0 power_half0.
rewrite big_nat_recr //= IH -exprVn -[_ ^+ N.+1]/(W^-1 ^ Posz N.+1) exprz_inv.
rewrite -power_half_even -power_halfD //; congr power_half.
by rewrite -natr1; ring.
Qed.

Lemma iczt_u_nth n k :
  (k < n)%N ->
  (iczt_u W n)`_k =
  (-1) ^+ k *
  (power_half W (2 * k%:Z ^+ 2 - (2 * n%:Z - 1) * k%:Z + n%:Z * (n%:Z - 1))
   / (chirp_prod W (n - k - 1) * chirp_prod W k)).
Proof.
move=> kn; rewrite /iczt_u nth_mkseq // /iczt_p !nth_mkseq //.
by nat_lia.
Qed.

Lemma kernel_term N i k (z := W ^ (i%:Z - N%:Z)) :
  (forall j, (0 < j < N.+1)%N -> W ^+ j != 1) -> (k <= N)%N ->
  power_half W (- (i%:Z - k%:Z) ^+ 2) * (iczt_u W N.+1)`_k =
  power_half W (N.+1%:Z * N%:Z - i%:Z ^+ 2) / chirp_prod W N *
  (W ^+ 'C(k, 2) * qbin W N k * (- z) ^+ k).
Proof.
move=> W1 kN; rewrite iczt_u_nth //.
have -> : (N.+1 - k - 1 = N - k)%N by nat_lia.
have pN0 : chirp_prod W N != 0 by apply: (chirp_prod_neq0 W1).
have pk0 : chirp_prod W k != 0 by apply: (chirp_prod_neq0 W1).
have pNk0 : chirp_prod W (N - k) != 0.
  by apply: (chirp_prod_neq0 W1); rewrite ltnS leq_subr.
have qb := qbin_chirp_prod W kN.
have qb0 : qbin W N k != 0.
  by apply: contra_neq pN0 => q0; rewrite -qb q0 mul0r.
have zk : z ^+ k = power_half W (2 * ((i%:Z - N%:Z) * k%:Z)).
  by rewrite power_half_even /z -exprz_exp.
have E : power_half W (- (i%:Z - k%:Z) ^+ 2) *
         power_half W (2 * k%:Z ^+ 2 - (2 * N.+1%:Z - 1) * k%:Z
                       + N.+1%:Z * (N.+1%:Z - 1)) =
         power_half W (N.+1%:Z * N%:Z - i%:Z ^+ 2) *
         (W ^+ 'C(k, 2) * z ^+ k).
  rewrite zk power_half_bin2 // -!power_halfD //; congr power_half.
  by rewrite -natr1; ring.
rewrite [(- z) ^+ k]exprNn -qb.
move: E qb0 pk0 pNk0.
move: (power_half W (- _)) (power_half W (_ + _)) (power_half W (_ - _))
      (W ^+ 'C(k, 2)) (z ^+ k) (qbin W N k) (chirp_prod W k)
      (chirp_prod W (N - k)) ((-1) ^+ k) => a b e wk zk' qk pk pNk s E qb0 pk0 pNk0.
transitivity (s * (a * b) / (pNk * pk)); first by field; rewrite pNk0 pk0.
by rewrite E; field; rewrite qb0 pk0 pNk0.
Qed.

Lemma kernel_column N i :
  (forall j, (0 < j < N.+1)%N -> W ^+ j != 1) -> (i <= N)%N ->
  \sum_(0 <= k < N.+1)
     power_half W (- (i%:Z - k%:Z) ^+ 2) * (iczt_u W N.+1)`_k =
  (i == 0%N)%:R.
Proof.
move=> W1 iN; pose z : C := W ^ (i%:Z - N%:Z).
have pN0 : chirp_prod W N != 0 by apply: (chirp_prod_neq0 W1).
transitivity (power_half W (N.+1%:Z * N%:Z - i%:Z ^+ 2) / chirp_prod W N *
              \prod_(0 <= j < N) (1 + (- z) * W ^+ j)).
  rewrite gauss_binomial big_distrr /=; apply: eq_big_nat => k /andP[_ kN].
  exact: kernel_term.
case: i iN @z => [|i] iN z /=.
  rewrite big_nat_rev /= add0n.
  under eq_big_nat => j /andP[_ jN].
    have -> : 1 + - z * W ^+ (N - j.+1) = W ^- j.+1 * (W ^+ j.+1 - 1).
      have -> : - z * W ^+ (N - j.+1) = - W ^- j.+1.
        rewrite mulNr /z sub0r -[W ^+ (N - _)]/(W ^ Posz (N - j.+1)) -subzn //.
        by rewrite -expfzDr // addrA addNr sub0r.
      by rewrite mulrBr mulVf ?mulr1 ?expf_neq0.
    over.
  rewrite big_split /= prod_inv_powers -chirp_prod_big mulrACA mulVf // mulr1.
  rewrite -power_halfD // -[RHS](power_half0 W); congr power_half.
  by rewrite expr0n /=; ring.
have j0N : (N - i.+1 < N)%N by nat_lia.
rewrite (@big_cat_nat _ _ _ (N - i.+1)) ?leq_subr //= (big_ltn j0N).
rewrite /z -[W ^+ (N - _)]/(W ^ Posz (N - i.+1)) -subzn // mulNr -expfzDr //.
have -> : i.+1%:Z - N%:Z + (N%:Z - i.+1%:Z) = 0 :> int by ring.
by rewrite expr0z subrr !(mul0r, mulr0).
Qed.

End KernelTheory.

Section GohbergSemencul.

Variable F : fieldType.
Variable N : nat.
Variable T : nat -> nat -> F.
Variable x : nat -> F.

Hypothesis T_toeplitz :
  forall i j, (i < N)%N -> (j < N)%N -> T i.+1 j.+1 = T i j.
Hypothesis T_first :
  forall i, (i <= N)%N -> \sum_(0 <= l < N.+1) T i l * x l = (i == 0%N)%:R.
Hypothesis T_last :
  forall i, (i <= N)%N ->
  \sum_(0 <= l < N.+1) T i l * x (N - l)%N = (i == N)%:R.
Hypothesis x0 : x 0%N != 0.

Local Notation gs := (gs N x).
Local Notation tg := (tg N x T).
Local Notation gs_term := (gs_term N x).
Local Notation xhat := (xhat N x).

Implicit Types (i j k l d : nat).

Lemma lowerSS (a : nat -> F) i k : lower a i.+1 k.+1 = lower a i k.
Proof. by rewrite /lower ltnS subSS. Qed.

Lemma lower0 (a : nat -> F) i : lower a i 0 = a i.
Proof. by rewrite /lower subn0. Qed.

Lemma lower_gt (a : nat -> F) i k : (i < k)%N -> lower a i k = 0.
Proof. by rewrite /lower ltnNge => /negbTE->. Qed.

Lemma lower_le (a : nat -> F) i k : (k <= i)%N -> lower a i k = a (i - k)%N.
Proof. by rewrite /lower => ->. Qed.

Lemma gs_sym i j : gs i j = gs j i.
Proof.
by congr (_ * _); apply: eq_bigr => k _; rewrite /gs_term mulrC [X in _ - X]mulrC.
Qed.

Lemma gs_col0 l : gs l 0 = x l.
Proof.
rewrite /gs big_nat_recl // big1_seq ?addr0 => [k _|].
  by rewrite /gs_term !(@lower_gt _ 0) ?mulr0 ?subr0.
by rewrite /gs_term !lower0 /= mulr0 subr0 mulrCA mulVf ?mulr1.
Qed.

Lemma gs_shift l j :
  (l < N)%N -> (j < N)%N ->
  gs l.+1 j.+1 = gs l j + (x 0%N)^-1 * (x l.+1 * x j.+1 - xhat l.+1 * xhat j.+1).
Proof.
move=> lN jN; rewrite /gs -mulrDr; congr (_ * _).
have gN : gs_term l j N = 0 by rewrite /gs_term !lower_gt // !mul0r subrr.
rewrite [LHS]big_nat_recl // [in RHS]big_nat_recr //= gN addr0 addrC.
by congr (_ + _).
Qed.

Lemma xhatS k : xhat k.+1 = x (N - k)%N.
Proof. by rewrite /xhat subSS. Qed.

Lemma gs_col_last l : (l <= N)%N -> gs l N = x (N - l)%N.
Proof.
move=> lN; rewrite /gs (@big_cat_nat _ _ _ l.+1) //=.
rewrite [X in _ + X]big_nat_cond [X in _ + X]big1 ?addr0 => [k /andP[/andP[lk _] _]|].
  by rewrite /gs_term !(@lower_gt _ l) // !mul0r subrr.
rewrite (eq_big_nat _ _ (F2 := fun k =>
           x (l - k)%N * x (N - k)%N - xhat (l - k) * xhat (N - k)))
  => [k /andP[_ kl]|].
  by rewrite /gs_term !lower_le // (leq_trans _ lN).
rewrite sumrB big_nat_rev /= add0n big_nat_recl // [X in _ - X]big_nat_recr //=.
rewrite subnn /= mul0r addr0 !subSS !subn0 subnn.
rewrite (eq_big_nat _ _ (F2 := fun k => x k.+1 * x (N - l + k.+1)%N))
  => [k /andP[_ kl]|].
  by congr (x _ * x _); nat_lia.
rewrite [X in _ - X](eq_big_nat _ _
    (F2 := fun k => x k.+1 * x (N - l + k.+1)%N)) => [k /andP[_ kl]|].
  rewrite -(subnSK kl) xhatS.
  have -> : (N - k = (N - k.+1).+1)%N by nat_lia.
  by rewrite xhatS mulrC; congr (x _ * x _); nat_lia.
by rewrite addrK mulrA mulVf ?mul1r.
Qed.

Lemma tg_col0 i : (i <= N)%N -> tg i 0 = (i == 0%N)%:R.
Proof.
by move=> iN; rewrite -T_first //; apply: eq_bigr => l _; rewrite gs_col0.
Qed.

Lemma tg_col_last i : (i <= N)%N -> tg i N = (i == N)%:R.
Proof.
move=> iN; rewrite -T_last //; apply: eq_big_nat => l /andP[_ lN].
by rewrite gs_col_last.
Qed.

Lemma sum_T_shift i :
  (i < N)%N -> \sum_(0 <= l < N) T i l * x l.+1 = - (T i.+1 0 * x 0%N).
Proof.
move=> iN; have /eqP := T_first iN; rewrite big_nat_recl //= addrC addr_eq0.
move=> /eqP <-.
by apply: eq_big_nat => l /andP[_ lN]; rewrite T_toeplitz.
Qed.

Lemma sum_T_rev i :
  (i < N)%N -> \sum_(0 <= l < N) T i l * xhat l.+1 = - (T i N * x 0%N).
Proof.
move=> iN; have /eqP := T_last (ltnW iN); rewrite big_nat_recr //= subnn.
rewrite (ltn_eqF iN) addr_eq0 => /eqP <-.
by apply: eq_bigr => l _; rewrite /xhat /= ?subSS.
Qed.

Lemma tg_shift i j : (i < N)%N -> (j < N)%N -> tg i.+1 j.+1 = tg i j.
Proof.
move=> iN jN; rewrite /tg big_nat_recl // [in RHS]big_nat_recr //=.
rewrite (eq_big_nat _ _ (F2 := fun l =>
   T i l * gs l j + (x 0%N)^-1 * x j.+1 * (T i l * x l.+1)
   - (x 0%N)^-1 * xhat j.+1 * (T i l * xhat l.+1))) => [l /andP[_ lN]|].
  by rewrite T_toeplitz // gs_shift //; ring.
rewrite sumrB big_split /= -!big_distrr /= sum_T_shift // sum_T_rev //.
rewrite [gs 0 _]gs_sym gs_col0 [gs N j]gs_sym gs_col_last 1?ltnW //.
rewrite /xhat /= ?subSS.
by move: x0; move: (x 0%N) => a a0; field.
Qed.

Lemma tg_diag d i j :
  (i + d <= N)%N -> (j + d <= N)%N -> tg (i + d) (j + d) = tg i j.
Proof.
elim: d => [|d IH]; first by rewrite !addn0.
by rewrite !addnS => iN jN; rewrite tg_shift // IH // ltnW.
Qed.

Theorem gs_right_inverse i j :
  (i <= N)%N -> (j <= N)%N -> tg i j = (i == j)%:R.
Proof.
move=> iN jN; case: (leqP j i) => ji.
  rewrite -[i in LHS](subnK ji) -[j in LHS]add0n tg_diag ?subnK ?add0n //.
  by rewrite tg_col0 ?(leq_trans (leq_subr _ _)) // subn_eq0 eqn_leq ji andbT.
have iN' : (i + (N - j) <= N)%N by nat_lia.
have jN' : (j + (N - j) <= N)%N by nat_lia.
rewrite -(tg_diag iN' jN') subnKC // tg_col_last // (ltn_eqF ji).
by have -> : (i + (N - j) == N)%N = false by apply/eqP => H; nat_lia.
Qed.

End GohbergSemencul.

Section InverseTheory.

Variable C : numClosedFieldType.
Variable omega : nat -> C.
Hypothesis omega_prim : forall n, (0 < n)%N -> n.-primitive_root (omega n).

Implicit Types (x X u : seq C) (W A : C) (i j k l m n N : nat).

Lemma bind_Ok (T U : Type) (v : T) (f : T -> result C U) :
  (y <- Ok v ;; f y) = f v.
Proof. by []. Qed.

Lemma icztE X N W A :
  size X = N -> (0 < N)%N ->
  iczt omega X N W A =
  (t1 <- toeplitz_multiply_e omega (iczt_uhat (iczt_u W N)) (nseq N 0)
           (mkseq (fun k => power_half W (- (k%:Z ^+ 2)) * X`_k) N) ;;
   xp <- toeplitz_multiply_e omega (nseq N 0) (iczt_uhat (iczt_u W N)) t1 ;;
   t2 <- toeplitz_multiply_e omega (iczt_u W N) (iczt_util (iczt_u W N) N)
           (mkseq (fun k => power_half W (- (k%:Z ^+ 2)) * X`_k) N) ;;
   xpp <- toeplitz_multiply_e omega (iczt_util (iczt_u W N) N) (iczt_u W N)
            t2 ;;
   Ok (mkseq (fun k => A ^+ k * power_half W (- (k%:Z ^+ 2)) *
                       (mkseq (fun k => (xpp`_k - xp`_k) / (iczt_u W N)`_0)
                          N)`_k) N)).
Proof. by move=> sX; rewrite /iczt sX eqxx; case: N sX. Qed.

Lemma iczt_pE W n : iczt_p W n = mkseq (chirp_prod W) n.
Proof. by []. Qed.

Lemma iczt_uE W n :
  iczt_u W n =
  mkseq (fun k =>
           (-1) ^+ k *
           (power_half W (2 * k%:Z ^+ 2 - (2 * n%:Z - 1) * k%:Z
                          + n%:Z * (n%:Z - 1))
            / ((iczt_p W n)`_(n - k - 1) * (iczt_p W n)`_k))) n.
Proof. by []. Qed.

Lemma iczt_uhatE u : iczt_uhat u = np_pad (rev (drop 1 u)) 1 0.
Proof. by rewrite drop1. Qed.

Lemma iczt_utilE u n : iczt_util u n = np_pad (take 1 u) 0 (n - 1).
Proof. by []. Qed.

Lemma size_iczt_u W n : size (iczt_u W n) = n.
Proof. by rewrite size_mkseq. Qed.

Lemma size_iczt_uhat u : (0 < size u)%N -> size (iczt_uhat u) = size u.
Proof.
by move=> u0; rewrite /iczt_uhat /np_pad /= cats0 size_rev size_behead prednK.
Qed.

Lemma size_iczt_util u n :
  (0 < size u)%N -> (0 < n)%N -> size (iczt_util u n) = n.
Proof.
move=> u0 n0; rewrite /iczt_util /np_pad /= size_cat size_takel // size_nseq.
by rewrite add1n subn1 prednK.
Qed.

Lemma nth_iczt_uhat u d :
  (d < size u)%N ->
  (iczt_uhat u)`_d = if d is 0 then 0 else u`_(size u - d).
Proof.
case: d => [|d] du //; rewrite /iczt_uhat /np_pad /= cats0.
rewrite nth_rev ?size_behead; first by nat_lia.
by rewrite nth_behead; congr (u`__); nat_lia.
Qed.

Lemma nth_iczt_util u n d :
  (0 < size u)%N -> (iczt_util u n)`_d = if d is 0 then u`_0 else 0.
Proof.
case: u => [|u0 u'] // _; rewrite /iczt_util /np_pad /= take0.
by case: d => [|d] //=; rewrite nth_nseq if_same.
Qed.

Section Entries.

Variables (N : nat) (u : seq C).
Hypothesis su : size u = N.+1.

Local Notation x := (nth 0 u).
Local Notation z := (nseq N.+1 (0 : C)).

Lemma uhat_xhat d : (d <= N)%N -> (iczt_uhat u)`_d = xhat N x d.
Proof. by move=> dN; rewrite nth_iczt_uhat ?su // /xhat su. Qed.

Lemma entry_uhat_z i j :
  (i <= N)%N -> (j <= N)%N ->
  toeplitz_entry (iczt_uhat u) z i j = lower (xhat N x) j i.
Proof.
move=> iN jN; rewrite /toeplitz_entry /lower nth_nseq if_same.
case: (ltngtP i j) => ij //; last by rewrite ij subnn.
by rewrite uhat_xhat // (leq_trans (leq_subr _ _)).
Qed.

Lemma entry_z_uhat i j :
  (i <= N)%N -> (j <= N)%N ->
  toeplitz_entry z (iczt_uhat u) i j = lower (xhat N x) i j.
Proof.
move=> iN jN; rewrite /toeplitz_entry /lower nth_nseq if_same.
by case: leqP => ij //; rewrite uhat_xhat // (leq_trans (leq_subr _ _)).
Qed.

Lemma entry_u_util i j :
  toeplitz_entry u (iczt_util u N.+1) i j = lower x j i.
Proof.
rewrite /toeplitz_entry /lower nth_iczt_util ?su //.
case: (ltngtP i j) => ij //; first by rewrite -subn_gt0 in ij; case: (i - j)%N ij.
by rewrite ij subnn.
Qed.

Lemma entry_util_u i j :
  toeplitz_entry (iczt_util u N.+1) u i j = lower x i j.
Proof.
rewrite /toeplitz_entry /lower nth_iczt_util ?su //.
by case: leqP => ij //; rewrite -subn_gt0 in ij; case: (j - i)%N ij.
Qed.

End Entries.

Lemma eq_dense_mul m n (T T' : nat -> nat -> C) y :
  (forall i j, (i < m)%N -> (j < n)%N -> T i j = T' i j) ->
  dense_mul m n T y = dense_mul m n T' y.
Proof.
move=> TT; apply: (@eq_from_nth _ 0); rewrite !size_mkseq // => i im.
by rewrite !nth_mkseq //; apply: eq_big_nat => j /andP[_ jn]; rewrite TT.
Qed.

(** Two nested triangular products are one product with a summed kernel. *)
Lemma nested_lower N (a : nat -> C) (y : seq C) k :
  (k <= N)%N ->
  \sum_(0 <= l < N.+1) lower a k l *
     (dense_mul N.+1 N.+1 (fun i j => lower a j i) y)`_l =
  \sum_(0 <= m < N.+1) (\sum_(0 <= l < N.+1) lower a k l * lower a m l) * y`_m.
Proof.
move=> kN; rewrite (eq_big_nat _ _ (F2 := fun l =>
   \sum_(0 <= m < N.+1) lower a k l * lower a m l * y`_m)) => [l /andP[_ lN]|].
  by rewrite nth_dense_mul // big_distrr /=; apply: eq_bigr => m _; rewrite mulrA.
by rewrite exchange_big /=; apply: eq_bigr => m _; rewrite big_distrl.
Qed.

Lemma iczt_dense N X W A (u := nth 0 (iczt_u W N.+1)) :
  size X = N.+1 ->
  iczt omega X N.+1 W A =
  Ok (mkseq (fun k =>
        A ^+ k * power_half W (- (k%:Z ^+ 2)) *
        \sum_(0 <= m < N.+1)
           gs N u k m * (power_half W (- (m%:Z ^+ 2)) * X`_m)) N.+1).
Proof.
move=> sX; rewrite /iczt sX eqxx.
set x' := mkseq _ _; set U := iczt_u W N.+1.
have sU : size U = N.+1 by rewrite size_iczt_u.
have sx' : size x' = N.+1 by rewrite size_mkseq.
have sh : size (iczt_uhat U) = N.+1 by rewrite size_iczt_uhat sU.
have st : size (iczt_util U N.+1) = N.+1 by rewrite size_iczt_util ?sU.
have h0 : (iczt_uhat U)`_0 = (nseq N.+1 (0 : C))`_0 by rewrite nth_iczt_uhat ?sU.
have t0 : (iczt_util U N.+1)`_0 = U`_0 by rewrite nth_iczt_util ?sU.
rewrite (toeplitz_multiply_e_dense omega_prim) ?sh ?size_nseq // bind_Ok.
rewrite (toeplitz_multiply_e_dense omega_prim) ?sh ?size_nseq ?size_dense_mul //
        bind_Ok.
rewrite (toeplitz_multiply_e_dense omega_prim) ?st ?sU // bind_Ok.
rewrite (toeplitz_multiply_e_dense omega_prim) ?st ?sU ?size_dense_mul //
        bind_Ok.
congr Ok; apply: (@eq_from_nth _ 0); rewrite !size_mkseq // => k kN.
rewrite [LHS]nth_mkseq // [RHS]nth_mkseq //; congr (_ * _).
rewrite nth_mkseq //.
have -> : dense_mul N.+1 N.+1 (toeplitz_entry U (iczt_util U N.+1)) x' =
          dense_mul N.+1 N.+1 (fun i j => lower u j i) x'.
  by apply: eq_dense_mul => i j _ _; rewrite entry_u_util.
have -> : dense_mul N.+1 N.+1 (toeplitz_entry (iczt_uhat U) (nseq N.+1 0)) x' =
          dense_mul N.+1 N.+1 (fun i j => lower (xhat N u) j i) x'.
  by apply: eq_dense_mul => i j iN jN; rewrite entry_uhat_z.
rewrite !nth_dense_mul //.
rewrite (eq_big_nat _ _ (F2 := fun l => lower u k l *
   (dense_mul N.+1 N.+1 (fun i j => lower u j i) x')`_l)) => [l _|].
  by rewrite entry_util_u.
rewrite [X in _ - X](eq_big_nat _ _ (F2 := fun l => lower (xhat N u) k l *
   (dense_mul N.+1 N.+1 (fun i j => lower (xhat N u) j i) x')`_l))
   => [l /andP[_ lN]|].
  by rewrite entry_z_uhat.
rewrite !nested_lower // -sumrB mulrC big_distrr /=.
apply: eq_big_nat => m /andP[_ mN].
by rewrite [x'`_m]nth_mkseq // /gs /gs_term sumrB -mulrBl mulrA.
Qed.

Section RoundTrip.

Variables (N : nat) (W A : C).
Hypothesis W0 : W != 0.
Hypothesis A0 : A != 0.
Hypothesis W1 : forall j, (0 < j < N.+1)%N -> W ^+ j != 1.

Local Notation u := (nth 0 (iczt_u W N.+1)).
Local Notation T := (fun i j : nat => power_half W (- (i%:Z - j%:Z) ^+ 2)).

Lemma chirp_toeplitz i j : T i.+1 j.+1 = T i j.
Proof. by congr power_half; ring. Qed.

Lemma chirp_sym i j : T i j = T j i.
Proof. by congr power_half; ring. Qed.

Lemma chirp_persym i l :
  (i <= N)%N -> (l <= N)%N -> T i (N - l)%N = T (N - i)%N l.
Proof.
by move=> iN lN; congr power_half; rewrite -!subzn //; ring.
Qed.

Lemma kernel_first i :
  (i <= N)%N -> \sum_(0 <= l < N.+1) T i l * u l = (i == 0%N)%:R.
Proof. by move=> iN; rewrite (kernel_column W0 W1). Qed.

Lemma kernel_last i :
  (i <= N)%N -> \sum_(0 <= l < N.+1) T i l * u (N - l)%N = (i == N)%:R.
Proof.
move=> iN; rewrite big_nat_rev /= add0n.
rewrite (eq_big_nat _ _ (F2 := fun l => T (N - i)%N l * u l))
  => [l /andP[_ lN]|].
  by rewrite subSS chirp_persym ?leq_subr // subKn.
rewrite (kernel_column W0 W1) ?leq_subr // subn_eq0.
by rewrite [in RHS]eqn_leq iN.
Qed.

Lemma kernel_head_neq0 : u 0%N != 0.
Proof.
rewrite iczt_u_nth // expr0 mul1r mulf_neq0 ?invr_eq0 ?power_half_neq0 //.
by rewrite mulf_neq0 // (chirp_prod_neq0 W1) // subn0 subn1.
Qed.

Lemma kernel_left_inverse k j :
  (k <= N)%N -> (j <= N)%N ->
  \sum_(0 <= m < N.+1) gs N u k m * T m j = (j == k)%:R.
Proof.
move=> kN jN.
rewrite -(gs_right_inverse (T := T) (x := u) _ kernel_first kernel_last
            kernel_head_neq0 jN kN) => [i l _ _|]; first exact: chirp_toeplitz.
by apply: eq_bigr => m _; rewrite mulrC gs_sym chirp_sym.
Qed.

Lemma sum_delta (y : nat -> C) k :
  (k <= N)%N -> \sum_(0 <= j < N.+1) (j == k)%:R * y j = y k.
Proof.
move=> kN; rewrite (bigD1_seq k) ?mem_index_iota ?iota_uniq //=.
rewrite eqxx mul1r big1 ?addr0 // => j /negbTE ->.
by rewrite mul0r.
Qed.

Lemma iczt_czt x :
  size x = N.+1 ->
  exists2 X, czt omega x N.+1 W A = Ok X & iczt omega X N.+1 W A = Ok x.
Proof.
move=> sx; rewrite (czt_dense omega_prim) ?sx //; set X := mkseq _ _.
exists X => //; rewrite iczt_dense ?size_mkseq //; congr Ok.
apply: (@eq_from_nth _ 0); rewrite size_mkseq ?sx // => k kN.
rewrite nth_mkseq //.
pose y j := power_half W (j%:Z ^+ 2) * A ^- j * x`_j.
rewrite (eq_big_nat _ _ (F2 := fun m =>
   \sum_(0 <= j < N.+1) gs N u k m * T m j * y j)) => [m /andP[_ mN]|].
  rewrite nth_mkseq // [X in _ * X]mulrA -power_halfD // addNr power_half0 mul1r.
  by rewrite big_distrr /=; apply: eq_bigr => j _; rewrite mulrA.
rewrite exchange_big /=.
rewrite (eq_big_nat _ _ (F2 := fun j => (j == k)%:R * y j))
  => [j /andP[_ jN]|].
  by rewrite -big_distrl /= kernel_left_inverse.
rewrite sum_delta // /y mulrA mulrA -[A ^+ k * _ * _]mulrA -power_halfD //.
by rewrite addNr power_half0 mulr1 divff ?mul1r // expf_neq0.
Qed.

End RoundTrip.

End InverseTheory.

Section Claims.

Variable C : numClosedFieldType.
Variable omega : nat -> C.
Hypothesis omega_prim : forall n, (0 < n)%N -> n.-primitive_root (omega n).

Implicit Types (x X c r u : seq C) (W A : C) (i j k l m n M N : nat).

(** C4: for a generator [c] and a vector [x] of one length [n >= 1],
    [circulant_multiply c x] returns the length-[n] product of the circulant
    matrix generated by [c] with [x]. *)
Theorem circulant_multiply_is_circulant_product c x :
  (0 < size c)%N -> size x = size c ->
  exists2 y, circulant_multiply omega c x = Ok y &
    size y = size c /\
    forall i, (i < size c)%N ->
      y`_i = \sum_(0 <= j < size c) circulant_entry c i j * x`_j.
Proof.
move=> _ sxc; rewrite (circulant_multiply_dense omega_prim) //.
eexists; first by [].
by split=> [|i ic]; rewrite ?size_dense_mul ?nth_dense_mul.
Qed.

(** C3 (amended): for a first row [r] of length [N >= 1], a first column [c]
    of length [M >= 1] with [r[0] == c[0]] and a vector [x] of length [N],
    [toeplitz_multiply_e r c x] returns the length-[M] product [T * x] of the
    Toeplitz matrix whose entry [(i, j)] is [c[i-j]] when [i >= j] and
    [r[j-i]] otherwise. *)
Theorem toeplitz_multiply_e_is_toeplitz_product r c x :
  (0 < size r)%N -> (0 < size c)%N -> r`_0 = c`_0 -> size x = size r ->
  exists2 y, toeplitz_multiply_e omega r c x = Ok y &
    size y = size c /\
    forall i, (i < size c)%N ->
      y`_i = \sum_(0 <= j < size r)
               (if (j <= i)%N then c`_(i - j) else r`_(j - i)) * x`_j.
Proof.
move=> r0 c0 rc sx; rewrite (toeplitz_multiply_e_dense omega_prim) //.
eexists; first by [].
by split=> [|i ic]; rewrite ?size_dense_mul ?nth_dense_mul.
Qed.

(** C2: for [x] of length [N >= 1], [M >= 1] and non-zero [W] and [A],
    [czt x M W A] returns [X] of length [M] with
    [X[k] = sum_j x[j] * A^(-j) * W^(j*k)]. *)
Theorem czt_is_chirp_z_transform x M W A :
  (0 < size x)%N -> (0 < M)%N -> W != 0 -> A != 0 ->
  exists2 X, czt omega x M W A = Ok X &
    size X = M /\
    forall k, (k < M)%N ->
      X`_k = \sum_(0 <= j < size x) x`_j * A ^- j * W ^+ (j * k).
Proof.
move=> N0 M0 W0 _; rewrite (czt_direct omega_prim) //.
eexists; first by [].
by split=> [|k kM]; rewrite ?size_mkseq ?nth_mkseq.
Qed.

(** C5: with [M = N], [W = exp(-2*pi*i/N)] (the kernel [omega N] of the
    [N]-point transform) and [A = 1], [czt] is the discrete Fourier
    transform. *)
Theorem czt_is_dft x :
  (0 < size x)%N ->
  czt omega x (size x) (omega (size x)) 1 = Ok (fft omega x).
Proof.
move=> N0; rewrite (czt_direct omega_prim) ?(omega_neq0 omega_prim) //.
congr Ok; apply: (@eq_from_nth _ 0); rewrite !size_mkseq // => k kN.
rewrite !nth_mkseq //; apply: eq_bigr => j _.
by rewrite expr1n invr1 mulr1.
Qed.

(** C1: in the square case, for non-zero [W] and [A] with [W^k != 1] for
    [k = 1..N-1], [iczt] recovers [x] from [czt x]. *)
Theorem iczt_inverts_czt x N W A :
  (0 < N)%N -> size x = N -> W != 0 -> A != 0 ->
  (forall k, (0 < k < N)%N -> W ^+ k != 1) ->
  exists2 X, czt omega x N W A = Ok X & iczt omega X N W A = Ok x.
Proof.
case: N => [|N] // _ sx W0 A0 W1.
exact: (iczt_czt omega_prim W0 A0 W1).
Qed.

(** *** Error behaviour *)

Lemma circulant_multiply_ok c x :
  size x = size c ->
  exists2 y, circulant_multiply omega c x = Ok y & size y = size c.
Proof.
move=> sxc; rewrite /circulant_multiply sxc eqxx; eexists; first by [].
by rewrite size_ifft size_mul_seq !size_fft sxc minnn.
Qed.

Lemma toeplitz_multiply_e_ok r c x :
  (0 < size r)%N -> (0 < size c)%N -> r`_0 = c`_0 -> size x = size r ->
  exists2 y, toeplitz_multiply_e omega r c x = Ok y & size y = size c.
Proof.
move=> r0 c0 rc sx; rewrite toeplitz_multiply_eE // rc eqxx sx eqxx /=.
set n := next_pow2 _; set C' := _ ++ rev _; set X := np_pad x _ _.
have le_n : (size c + size r - 1 <= n)%N by apply: next_pow2_ge.
have sC : size C' = n.
  by rewrite !size_cat !size_nseq size_rev size_behead; nat_lia.
have sX : size X = n by rewrite !size_cat !size_nseq sx; nat_lia.
have [y -> sy] := @circulant_multiply_ok C' X (etrans sX (esym sC)).
by eexists; first by []; rewrite size_takel // sy sC; nat_lia.
Qed.

(** With [r[0] != c[0]] the error raised shows what [%f] prints of the two
    entries. *)
Lemma toeplitz_multiply_e_violation r c x :
  (0 < size r)%N -> (0 < size c)%N -> r`_0 != c`_0 ->
  toeplitz_multiply_e omega r c x =
  Raise (ToeplitzInvariantViolation (format_f r`_0) (format_f c`_0)).
Proof. by move=> r0 c0 rc; rewrite toeplitz_multiply_eE // rc. Qed.

Lemma toeplitz_not_dimension r c x a b :
  toeplitz_multiply_e omega r c x <> Raise (DimensionMismatch a b).
Proof.
case: r c => [|r0 r'] [|c0 c'] //=; do 2![case: ifP => // _].
by rewrite /circulant_multiply; case: ifP.
Qed.

Lemma bind_not_dimension (m : result C (seq C))
    (f : seq C -> result C (seq C)) a b :
  m <> Raise (DimensionMismatch a b) ->
  (forall v, f v <> Raise (DimensionMismatch a b)) ->
  (v <- m ;; f v) <> Raise (DimensionMismatch a b).
Proof. by case: m => [v|e] //= _ ->. Qed.

(** C8: [iczt X N W A] raises [DimensionMismatch], carrying [len(X)] and [N],
    exactly when [len(X) != N]. *)
Theorem iczt_dimension_mismatch X N W A a b :
  iczt omega X N W A = Raise (DimensionMismatch a b) <->
  size X != N /\ a = size X /\ b = N.
Proof.
rewrite /iczt; case: eqP => [sX|/eqP sX]; last first.
  by split=> [[-> ->]|[_ [-> ->]]].
split=> [H|[]] //; exfalso; case: N sX H => [|N] sX //.
by do 4![apply: bind_not_dimension => [|?]; first exact: toeplitz_not_dimension].
Qed.

(** C6 (amended): [czt] on an empty sequence, [czt] with [M = 0] and [iczt]
    on an empty sequence with [N = 0] return no output: indexing the empty
    array raises [IndexError]. *)
Theorem degenerate_lengths_raise x M W A :
  [/\ czt omega [::] M W A = Raise IndexError,
      czt omega x 0 W A = Raise IndexError &
      iczt omega [::] 0 W A = Raise IndexError].
Proof. by split=> //; rewrite /czt /=; case: (size x). Qed.

Lemma iczt_ok X n W A :
  (0 < n)%N -> size X = n ->
  exists2 y, iczt omega X n W A = Ok y & size y = n.
Proof.
move=> n0 sX; rewrite icztE //.
set x' := mkseq _ n; set u := iczt_u W n; set z := nseq n (0 : C).
set uhat := iczt_uhat u; set util := iczt_util u n.
have su : size u = n by rewrite size_iczt_u.
have sz : size z = n by rewrite size_nseq.
have sh : size uhat = n by rewrite size_iczt_uhat su.
have st : size util = n by rewrite size_iczt_util ?su.
have sx' : size x' = n by rewrite size_mkseq.
have h0 : uhat`_0 = z`_0 by rewrite nth_iczt_uhat ?su // nth_nseq n0.
have t0 : util`_0 = u`_0 by rewrite nth_iczt_util ?su.
have [t1 -> s1] : exists2 y, toeplitz_multiply_e omega uhat z x' = Ok y
                             & size y = size z.
  by apply: toeplitz_multiply_e_ok; rewrite ?sh ?sz.
have [xp /= -> s2] : exists2 y, toeplitz_multiply_e omega z uhat t1 = Ok y
                             & size y = size uhat.
  by apply: toeplitz_multiply_e_ok; rewrite ?sh ?sz ?s1.
have [t2 /= -> s3] : exists2 y, toeplitz_multiply_e omega u util x' = Ok y
                             & size y = size util.
  by apply: toeplitz_multiply_e_ok; rewrite ?su ?st.
have [xpp /= -> s4] : exists2 y, toeplitz_multiply_e omega util u t2 = Ok y
                              & size y = size u.
  by apply: toeplitz_multiply_e_ok; rewrite ?su ?st ?s3.
by eexists; first by []; rewrite size_mkseq.
Qed.


End Claims.

(** ** Further properties of the four operations *)

Section Outcomes.

Variable C : numClosedFieldType.
Variable omega : nat -> C.
Hypothesis omega_prim : forall n, (0 < n)%N -> n.-primitive_root (omega n).

Implicit Types (x y X c r u : seq C) (W A a b : C) (i j k l m n M N : nat).

(** X1: [circulant_multiply] raises [LengthMismatch], carrying [len(x)] and
    [len(c)], exactly when the two lengths differ. *)
Theorem circulant_multiply_length_mismatch c x m n :
  circulant_multiply omega c x = Raise (LengthMismatch m n) <->
  [/\ size x != size c, m = size x & n = size c].
Proof.
rewrite circulant_multiplyE; case: ifP => _; last by split=> // -[].
by split=> [[-> ->]|[_ -> ->]].
Qed.

(** X2: the product by a circulant matrix commutes in its two arguments:
    [circulant_multiply c x] and [circulant_multiply x c] return the same
    sequence. *)
Theorem circulant_multiply_comm c x :
  size x = size c ->
  circulant_multiply omega c x = circulant_multiply omega x c.
Proof.
move=> sxc; rewrite !circulant_multiplyE sxc eqxx /=; congr (Ok (ifft _ _)).
apply: (@eq_from_nth _ 0) => [|i _]; first by rewrite !size_mul_seq minnC.
by rewrite !nth_mul_seq ?size_fft // mulrC.
Qed.

(** X3: multiplying by the unit impulse [(1, 0, ..., 0)] returns the
    generator [c]: the first column of the circulant matrix is [c]. *)
Theorem circulant_multiply_impulse c :
  (0 < size c)%N ->
  circulant_multiply omega c (1 :: nseq (size c).-1 0) = Ok c.
Proof.
move=> c0.
have se : size (1 :: nseq (size c).-1 (0 : C)) = size c.
  by rewrite /= size_nseq prednK.
rewrite (circulant_multiply_dense omega_prim) //; congr Ok.
apply: (@eq_from_nth _ 0); rewrite size_dense_mul // => i ic.
rewrite nth_dense_mul // big_ltn // big_nat_cond big1 => [j /andP[/andP[j0 _] _]|].
  by case: j j0 => // j _; rewrite /= nth_nseq if_same mulr0.
by rewrite addr0 mulr1 /circulant_entry subn0 modnDr modn_small.
Qed.

(** X4: the order of the checks of [toeplitz_multiply_e]: indexing an empty
    [r] or [c] raises [IndexError]; otherwise, with [r[0] != c[0]], nothing
    is returned and the error is not the one about lengths, whatever the
    length of [x]; with [r[0] == c[0]], [LengthMismatch] carrying [len(x)]
    and [len(r)] is raised when these differ, and the dense Toeplitz product
    is returned when they agree. *)
Theorem toeplitz_multiply_e_outcome r c x :
  if (size r == 0%N) || (size c == 0%N) then
    toeplitz_multiply_e omega r c x = Raise IndexError
  else if r`_0 != c`_0 then
    (forall y, toeplitz_multiply_e omega r c x <> Ok y) /\
    (forall m n, toeplitz_multiply_e omega r c x <> Raise (LengthMismatch m n))
  else if size x != size r then
    toeplitz_multiply_e omega r c x = Raise (LengthMismatch (size x) (size r))
  else
    toeplitz_multiply_e omega r c x =
    Ok (dense_mul (size c) (size r) (toeplitz_entry r c) x).
Proof.
case: (posnP (size r)) => [/size0nil -> //|r0].
case: (posnP (size c)) => [/size0nil ->|c0]; first by case: (r).
rewrite /=; case: (eqVneq r`_0 c`_0) => [rc|rc].
  case: (eqVneq (size x) (size r)) => [sx|sx].
    by rewrite (toeplitz_multiply_e_dense omega_prim).
  by rewrite toeplitz_multiply_eE // rc eqxx sx.
by rewrite toeplitz_multiply_e_violation.
Qed.

(** X5: the length of the circulant embedding is a power of two, at least
    [m] and, for [m >= 1], less than [2 * m]. *)
Theorem next_pow2_bounds m :
  [/\ exists e, next_pow2 m = (2 ^ e)%N, (m <= next_pow2 m)%N
    & (0 < m)%N -> (next_pow2 m < 2 * m)%N].
Proof.
split; [by exists (up_log 2 m) | exact: up_logP |].
case: m => [|[|m]] // _; rewrite /next_pow2.
have /andP[lo _] := @up_log_bounds 2 m.+2 isT isT.
have k0 : (0 < up_log 2 m.+2)%N by rewrite up_log_gt0.
by rewrite -(prednK k0) expnS ltn_pmul2l.
Qed.

(** X6: [czt] returns for every [W] and [A] as soon as [x] and the output
    are not empty, and raises [IndexError] otherwise: the inner call of
    [toeplitz_multiply_e] always meets its preconditions. *)
Theorem czt_outcome x M W A :
  if (0 < size x)%N && (0 < M)%N
  then exists2 X, czt omega x M W A = Ok X & size X = M
  else czt omega x M W A = Raise IndexError.
Proof.
case: ifP => [/andP[x0 M0]|].
  rewrite /czt.
  set r := mkseq _ (size x); set c := mkseq _ M; set X := mkseq _ (size x).
  have sr : size r = size x by rewrite size_mkseq.
  have sc : size c = M by rewrite size_mkseq.
  have sX : size X = size x by rewrite size_mkseq.
  have rc : r`_0 = c`_0 by rewrite /r /c !nth_mkseq.
  have [] := @toeplitz_multiply_e_ok _ omega r c X; rewrite ?sr ?sc // => y -> _.
  by eexists; first by []; rewrite size_mkseq.
rewrite /czt; case: (size x) => [|n] //=.
by case: M.
Qed.

(** X7: the outcomes of [iczt]: [DimensionMismatch] when [len(X) != N],
    [IndexError] when [len(X) = N = 0], and, when [W^j != 1] for
    [j = 1..N-1], so that no [p[k]] the kernel divides by is zero, a sequence
    of length [N]. *)
Theorem iczt_outcome X N W A :
  if size X != N then
    iczt omega X N W A = Raise (DimensionMismatch (size X) N)
  else if N == 0%N then iczt omega X N W A = Raise IndexError
  else (forall j, (0 < j < N)%N -> W ^+ j != 1) ->
       exists2 y, iczt omega X N W A = Ok y & size y = N.
Proof.
case: (eqVneq (size X) N) => [sX|sX] /=; last by rewrite /iczt sX.
case: (posnP N) => [N0|N0]; first by rewrite /iczt sX eqxx N0.
by move=> _; apply: iczt_ok.
Qed.



(** X10: with [W = exp(2*pi*i/N)], the value the comment in [czt] names, and
    [A = 1], [czt] returns [N] times the inverse discrete Fourier transform. *)
Theorem czt_conjugate_kernel x :
  (0 < size x)%N ->
  czt omega x (size x) (omega (size x))^-1 1 =
  Ok (mkseq (fun k => (size x)%:R * (ifft omega x)`_k) (size x)).
Proof.
move=> x0.
have w0 : omega (size x) != 0 by apply: omega_neq0.
rewrite (czt_direct omega_prim) ?invr_eq0 //; congr Ok.
apply: (@eq_from_nth _ 0); rewrite !size_mkseq // => k kN.
rewrite [LHS]nth_mkseq // [RHS]nth_mkseq // nth_ifft //.
rewrite mulrA divff ?mul1r ?pnatr_eq0 -?lt0n //.
apply: eq_bigr => j _.
by rewrite expr1n invr1 mulr1 exprVn mulnC.
Qed.

(** X16: the products [p[k]] that [iczt] divides by are all non-zero exactly
    when [W^j != 1] for [j = 1..n-1]. *)
Theorem iczt_p_nonzero W n :
  (forall j, (0 < j < n)%N -> W ^+ j != 1) <->
  (forall k, (k < n)%N -> (iczt_p W n)`_k != 0).
Proof.
split=> [W1 k kn|p0 j /andP[j0 jn]].
  by rewrite nth_mkseq //; apply: chirp_prod_neq0 kn.
have := p0 j jn; rewrite nth_mkseq //.
case: j j0 {jn} => // j _.
by rewrite chirp_prodS mulf_eq0 negb_or subr_eq0 => /andP[].
Qed.

(** X17: the kernel [u] that [iczt] builds is the first column of the inverse
    of the chirp Toeplitz matrix with entries [W^(-(i-k)^2/2)]. *)
Theorem iczt_u_inverse_column W n i :
  W != 0 -> (forall j, (0 < j < n)%N -> W ^+ j != 1) -> (i < n)%N ->
  \sum_(0 <= k < n)
     power_half W (- (i%:Z - k%:Z) ^+ 2) * (iczt_u W n)`_k = (i == 0%N)%:R.
Proof.
by case: n => // n W0 W1 iN; apply: kernel_column.
Qed.

Section RightInverse.

Variables (N : nat) (W A : C).
Hypothesis W0 : W != 0.
Hypothesis A0 : A != 0.
Hypothesis W1 : forall j, (0 < j < N.+1)%N -> W ^+ j != 1.

Local Notation u := (nth 0 (iczt_u W N.+1)).
Local Notation T := (fun i j : nat => power_half W (- (i%:Z - j%:Z) ^+ 2)).

Lemma kernel_right_inverse k m :
  (k <= N)%N -> (m <= N)%N ->
  \sum_(0 <= j < N.+1) T k j * gs N u j m = (k == m)%:R.
Proof.
move=> kN mN.
rewrite -[RHS](gs_right_inverse (T := T) (x := u) _ (kernel_first W0 W1)
                 (kernel_last W0 W1) (kernel_head_neq0 W0 W1) kN mN) //.
by move=> i l _ _; exact: chirp_toeplitz.
Qed.

Lemma czt_iczt X :
  size X = N.+1 ->
  exists2 x, iczt omega X N.+1 W A = Ok x & czt omega x N.+1 W A = Ok X.
Proof.
move=> sX; rewrite (iczt_dense omega_prim) //; set x := mkseq _ _.
exists x => //; rewrite (czt_dense omega_prim) ?size_mkseq //; congr Ok.
apply: (@eq_from_nth _ 0); rewrite size_mkseq ?sX // => k kN.
rewrite nth_mkseq //.
pose y m := power_half W (- (m%:Z ^+ 2)) * X`_m.
rewrite (eq_big_nat _ _ (F2 := fun j =>
   \sum_(0 <= m < N.+1) T k j * gs N u j m * y m)) => [j /andP[_ jN]|].
  rewrite nth_mkseq //; set S := \sum_(0 <= m < N.+1) _.
  have pq : power_half W (j%:Z ^+ 2) * power_half W (- (j%:Z ^+ 2)) = 1.
    by rewrite -power_halfD // subrr power_half0.
  rewrite -!mulrA [A ^- j * _]mulrA mulVf ?expf_neq0 // mul1r.
  rewrite [power_half W (j%:Z ^+ 2) * _]mulrA pq mul1r.
  by rewrite big_distrr /=; apply: eq_bigr => m _; rewrite mulrA.
rewrite exchange_big /=.
rewrite (eq_big_nat _ _ (F2 := fun m => (m == k)%:R * y m))
  => [m /andP[_ mN]|].
  by rewrite -big_distrl /= kernel_right_inverse // eq_sym.
rewrite sum_delta // /y mulrA -power_halfD // subrr power_half0.
by rewrite mul1r.
Qed.

End RightInverse.

(** X11: in the square case [czt] also inverts [iczt]: for non-zero [W] and
    [A] with [W^k != 1] for [k = 1..N-1], [czt (iczt X) = X]. *)
Theorem czt_inverts_iczt X N W A :
  (0 < N)%N -> size X = N -> W != 0 -> A != 0 ->
  (forall k, (0 < k < N)%N -> W ^+ k != 1) ->
  exists2 x, iczt omega X N W A = Ok x & czt omega x N W A = Ok X.
Proof.
case: N => [|N] // _ sX W0 A0 W1.
exact: czt_iczt.
Qed.

End Outcomes.

(** ** The store-passing model *)

Local Open Scope st_scope.

Section StoreTheory.

Variable C : numClosedFieldType.

Implicit Types (h l : heap C) (a : ndarray) (s v : seq C) (i k n : nat).

Lemma set_nth_catr (T : Type) (x0 : T) (s1 s2 : seq T) i y :
  set_nth x0 (s1 ++ s2) (size s1 + i) y = s1 ++ set_nth x0 s2 i y.
Proof. by elim: s1 => //= x s1 ->. Qed.

Lemma nth_catr (T : Type) (x0 : T) (s1 s2 : seq T) i :
  nth x0 (s1 ++ s2) (size s1 + i) = nth x0 s2 i.
Proof. by rewrite nth_cat ltnNge leq_addr /= addKn. Qed.

Lemma load_cat h l a : (base a < size h)%N -> load (h ++ l) a = load h a.
Proof. by move=> ah; rewrite /load nth_cat ah. Qed.

Lemma load_frame h l l' i a :
  (forall j, j != i -> nth [::] l' j = nth [::] l j) ->
  base a != (size h + i)%N -> load (h ++ l') a = load (h ++ l) a.
Proof.
move=> l'j ai; rewrite /load !nth_cat; case: ltnP => // ha.
rewrite l'j //; apply: contra ai => /eqP <-.
by rewrite subnKC.
Qed.

Lemma load_local h l i ix :
  load (h ++ l) (NdArray (size h + i) ix) = [seq (nth [::] l i)`_p | p <- ix].
Proof. by rewrite /load /= nth_catr. Qed.

Lemma map_nth_iota s : [seq s`_p | p <- iota 0 (size s)] = s.
Proof. exact: mkseq_nth. Qed.

Lemma np_array_local v h l :
  np_array v (h ++ l) =
  Ok (NdArray (size h + size l) (iota 0 (size v)), h ++ rcons l v).
Proof. by rewrite /np_array size_cat rcons_cat. Qed.

Lemma read_local h l i ix :
  read (NdArray (size h + i) ix) (h ++ l) =
  Ok ([seq (nth [::] l i)`_p | p <- ix], h ++ l).
Proof. by rewrite /read load_local. Qed.

Lemma read_in h l a :
  (base a < size h)%N -> read a (h ++ l) = Ok (load h a, h ++ l).
Proof. by move=> ah; rewrite /read load_cat. Qed.

Lemma getitem_local h l i ix k :
  (k < size ix)%N ->
  getitem (NdArray (size h + i) ix) k (h ++ l) =
  Ok ((nth [::] l i)`_(nth 0%N ix k), h ++ l).
Proof.
by move=> kix; rewrite /getitem /len /= kix load_local (nth_map 0%N).
Qed.

Lemma getitem_in h l a k :
  (base a < size h)%N -> (k < len a)%N ->
  getitem a k (h ++ l) = Ok ((load h a)`_k, h ++ l).
Proof. by move=> ah ka; rewrite /getitem ka load_cat. Qed.

Lemma setitem_local h l i ix k (v : C) :
  (k < size ix)%N ->
  setitem (NdArray (size h + i) ix) k v (h ++ l) =
  Ok (tt, h ++ set_nth [::] l i (set_nth 0 (nth [::] l i) (nth 0%N ix k) v)).
Proof. by move=> kix; rewrite /setitem /len /= kix set_nth_catr nth_catr. Qed.

Lemma size_load h a : size (load h a) = len a.
Proof. by rewrite size_map. Qed.

Lemma load_slice_from h k a : load h (slice_from k a) = drop k (load h a).
Proof. by rewrite /load /= map_drop. Qed.

Lemma load_slice_to h k a : load h (slice_to k a) = take k (load h a).
Proof. by rewrite /load /= map_take. Qed.

Lemma load_np_flip h a : load h (np_flip a) = rev (load h a).
Proof. by rewrite /load /= map_rev. Qed.

Lemma getitemE a k h :
  getitem a k h =
  if (k < len a)%N then Ok ((load h a)`_k, h) else Raise IndexError.
Proof. by []. Qed.

Lemma setitemE a k (v : C) h :
  setitem a k v h =
  if (k < len a)%N then
    Ok (tt, set_nth [::] h (base a)
              (set_nth 0 (nth [::] h (base a)) (nth 0%N (idx a) k) v))
  else Raise IndexError.
Proof. by []. Qed.

Lemma readE a h : read a h = Ok (load h a, h).
Proof. by []. Qed.

Lemma np_arrayE v h :
  np_array v h = Ok (NdArray (size h) (iota 0 (size v)), rcons h v).
Proof. by []. Qed.

Lemma fill0 f s : fill f 0 s = s.
Proof. by rewrite /fill /= drop0. Qed.

Lemma fill_size f s : fill f (size s) s = mkseq f (size s).
Proof. by rewrite /fill drop_size cats0. Qed.

Lemma size_fill f k s : (k <= size s)%N -> size (fill f k s) = size s.
Proof. by move=> ks; rewrite size_cat size_mkseq size_drop subnKC. Qed.

Lemma nth_fill_lt f k s i : (i < k)%N -> (fill f k s)`_i = f i.
Proof. by move=> ik; rewrite nth_cat size_mkseq ik nth_mkseq. Qed.

Lemma nth_fill_ge f k s i : (k <= i)%N -> (fill f k s)`_i = s`_i.
Proof.
by move=> ki; rewrite nth_cat size_mkseq ltnNge ki /= nth_drop subnKC.
Qed.

Lemma set_nth_fill f k s :
  (k < size s)%N -> set_nth 0 (fill f k s) k (f k) = fill f k.+1 s.
Proof.
move=> ks; apply: (@eq_from_nth _ 0) => [|i _].
  by rewrite size_set_nth !size_fill ?(ltnW ks) //; apply/maxn_idPr.
rewrite nth_set_nth /=; case: (ltngtP i k) => ik.
- by rewrite !nth_fill_lt // ltnW.
- by rewrite !nth_fill_ge // ltnW.
- by rewrite ik nth_fill_lt.
Qed.

Lemma for_range_cons k ks (body : nat -> st C unit) :
  for_range (k :: ks) body = bind_st (body k) (fun _ => for_range ks body).
Proof. by []. Qed.

Lemma for_range_nil (body : nat -> st C unit) h :
  for_range [::] body h = Ok (tt, h).
Proof. by []. Qed.

(** Loops with an invariant indexed by the loop counter. *)
Lemma for_range_inv (I : nat -> heap C -> Prop) (body : nat -> st C unit)
    m n h :
  I m h ->
  (forall k h1, (m <= k < m + n)%N -> I k h1 ->
     exists2 h2, body k h1 = Ok (tt, h2) & I k.+1 h2) ->
  exists2 h', for_range (iota m n) body h = Ok (tt, h') & I (m + n)%N h'.
Proof.
elim: n m h => [|n IH] m h Im step.
  by exists h; rewrite ?addn0 ?for_range_nil.
have [|h1 E1 I1] := step m h _ Im; first by rewrite leqnn -addn1 leq_add2l.
have [k h2 /andP[mk kn] Ik|h' E' I'] := IH m.+1 h1 I1.
  by apply: step => //; rewrite (ltnW mk) addnS -addSn.
by exists h'; rewrite ?addnS -?addSn //= for_range_cons /bind_st E1.
Qed.

(** A loop that fills buffer [i] of the local frame [l], entry [k] at step
    [k], and leaves the other buffers alone. *)
Lemma fill_loop h l i m n s (f : nat -> C) (body : nat -> st C unit) :
  nth [::] l i = s -> (n <= size s)%N -> (i < size l)%N -> (m <= n)%N ->
  fill f m s = s ->
  (forall k l', (m <= k < n)%N -> nth [::] l' i = fill f k s ->
     (forall j, j != i -> nth [::] l' j = nth [::] l j) ->
     size l' = size l ->
     body k (h ++ l') =
     Ok (tt, h ++ set_nth [::] l' i (set_nth 0 (nth [::] l' i) k (f k)))) ->
  for_range (iota m (n - m)) body (h ++ l) =
  Ok (tt, h ++ set_nth [::] l i (fill f n s)).
Proof.
move=> li sn il mn fm step.
pose I k h1 := exists l', [/\ h1 = h ++ l', nth [::] l' i = fill f k s,
  forall j, j != i -> nth [::] l' j = nth [::] l j & size l' = size l].
have [||h' -> [l' [-> l'i l'j sl']]] := @for_range_inv I body m (n - m) (h ++ l).
- by exists l; split=> //; rewrite li fm.
- move=> k h1; rewrite subnKC // => kn [l' [-> l'i l'j sl']].
  have kn' : (k < size s)%N by case/andP: kn => _ /leq_trans; apply.
  eexists; first exact: step.
  exists (set_nth [::] l' i (set_nth 0 (nth [::] l' i) k (f k))); split=> //.
  + by rewrite nth_set_nth /= eqxx l'i set_nth_fill.
  + by move=> j ji; rewrite nth_set_nth /= (negbTE ji) l'j.
  + by rewrite size_set_nth sl'; apply/maxn_idPr.
congr (Ok (tt, h ++ _)); apply: (@eq_from_nth _ [::]) => [|j _].
  by rewrite size_set_nth sl'; apply/esym/maxn_idPr.
rewrite nth_set_nth /=; case: eqP => [->|/eqP ji]; last exact: l'j.
by rewrite l'i subnKC.
Qed.

Lemma fill_loop_prefix h l i n s (f : nat -> C) (body : nat -> st C unit) :
  nth [::] l i = s -> (n <= size s)%N -> (i < size l)%N ->
  (forall k l', (k < n)%N -> nth [::] l' i = fill f k s ->
     (forall j, j != i -> nth [::] l' j = nth [::] l j) ->
     size l' = size l ->
     body k (h ++ l') =
     Ok (tt, h ++ set_nth [::] l' i (set_nth 0 (nth [::] l' i) k (f k)))) ->
  for_range (iota 0 n) body (h ++ l) =
  Ok (tt, h ++ set_nth [::] l i (fill f n s)).
Proof.
move=> li sn il step; rewrite -[n in iota 0 n]subn0.
have step' k l' : (0 <= k < n)%N -> _ := step k l'.
by apply: (fill_loop li sn) => //; first by rewrite fill0.
Qed.

Lemma fill_loop0 h l i n s (f : nat -> C) (body : nat -> st C unit) :
  nth [::] l i = s -> size s = n -> (i < size l)%N ->
  (forall k l', (k < n)%N -> nth [::] l' i = fill f k s ->
     (forall j, j != i -> nth [::] l' j = nth [::] l j) ->
     size l' = size l ->
     body k (h ++ l') =
     Ok (tt, h ++ set_nth [::] l' i (set_nth 0 (nth [::] l' i) k (f k)))) ->
  for_range (iota 0 n) body (h ++ l) =
  Ok (tt, h ++ set_nth [::] l i (mkseq f n)).
Proof.
move=> li sn il step; rewrite -sn -fill_size sn.
by apply: fill_loop_prefix => //; rewrite sn.
Qed.

End StoreTheory.

Opaque np_array read getitem setitem load for_range.
Opaque np_pad fft ifft mul_seq next_pow2 circulant_multiply.
Opaque toeplitz_multiply_e iczt_u iczt_uhat iczt_util iczt_p.

Section Runs.

Variable C : numClosedFieldType.
Variable omega : nat -> C.
Variable junk : nat -> C.

Implicit Types (H h l : heap C) (a r c x X : ndarray) (W A : C).
Implicit Types (i k n M N : nat).

Local Notation circulant_bufs := (circulant_bufs omega).
Local Notation toeplitz_bufs := (toeplitz_bufs omega).

Lemma circulant_multiply_st_run H c x :
  (base c < size H)%N -> (base x < size H)%N ->
  circulant_multiply_st omega c x H =
  if size (load H x) != size (load H c)
  then Raise (LengthMismatch (size (load H x)) (size (load H c)))
  else Ok (NdArray (size H + 3)
             (iota 0 (size (ifft omega (mul_seq (fft omega (load H c))
                                                (fft omega (load H x)))))),
           H ++ circulant_bufs (load H c) (load H x)).
Proof.
move=> cH xH; rewrite /circulant_multiply_st !size_load.
case: ifP => // _; rewrite -[H in LHS]cats0.
rewrite /fft_st /mul_st /ifft_st /bind_st read_in //= np_array_local /=.
rewrite read_in //= np_array_local /= read_local /= map_nth_iota.
rewrite (read_local _ _ 1) /= map_nth_iota np_array_local /=.
by rewrite (read_local _ _ 2) /= map_nth_iota np_array_local.
Qed.

Lemma np_pad_st_local a (before after : nat) h l :
  np_pad_st a before after (h ++ l) =
  Ok (NdArray (size h + size l)
        (iota 0 (size (np_pad (load (h ++ l) a) before after))),
      h ++ rcons l (np_pad (load (h ++ l) a) before after)).
Proof. by rewrite /np_pad_st /bind_st readE np_array_local. Qed.

Lemma np_concatenate_local a b h l :
  np_concatenate a b (h ++ l) =
  Ok (NdArray (size h + size l)
        (iota 0 (size (load (h ++ l) a ++ load (h ++ l) b))),
      h ++ rcons l (load (h ++ l) a ++ load (h ++ l) b)).
Proof. by rewrite /np_concatenate /bind_st !readE /= np_array_local. Qed.

Lemma load_whole h l i s :
  nth [::] l i = s ->
  load (h ++ l) (NdArray (size h + i) (iota 0 (size s))) = s.
Proof. by move=> <-; rewrite load_local map_nth_iota. Qed.

Lemma load_buf h l i s n :
  nth [::] l i = s -> size s = n ->
  load (h ++ l) (NdArray (size h + i) (iota 0 n)) = s.
Proof. by move=> li <-; apply: load_whole. Qed.

Lemma toeplitz_multiply_e_st_run H r c x :
  (base r < size H)%N -> (base c < size H)%N -> (base x < size H)%N ->
  toeplitz_multiply_e_st omega r c x H =
  match toeplitz_multiply_e omega (load H r) (load H c) (load H x) with
  | Raise e => Raise e
  | Ok y =>
      Ok (slice_to (size (load H c))
            (NdArray (size H + 6)
               (iota 0 (size (last [::] (toeplitz_bufs (load H r) (load H c)
                                           (load H x)))))),
          H ++ toeplitz_bufs (load H r) (load H c) (load H x))
  end.
Proof.
move=> rH cH xH; rewrite /toeplitz_bufs.
rewrite /toeplitz_multiply_e_st /bind_st getitemE -!(size_load H).
case: ltnP => [r0|]; last first.
  by rewrite leqn0 => /eqP/size0nil ->.
rewrite /= getitemE -!(size_load H); case: ltnP => [c0|]; last first.
  by rewrite leqn0 => /eqP/size0nil ->; case: (load H r).
rewrite toeplitz_multiply_eE // /=.
case: ifP => // _; case: ifP => // _.
rewrite -[H in np_pad_st _ _ _ H]cats0 np_pad_st_local /= (load_cat _ cH).
set pc := np_pad (load H c) _ _.
rewrite np_concatenate_local /= (@load_whole _ _ 0) //.
rewrite (@load_cat _ _ _ (np_flip (slice_from 1 r)) rH).
rewrite load_np_flip load_slice_from drop1; set C' := pc ++ _.
rewrite np_pad_st_local /= (load_cat _ xH); set X := np_pad _ _ _.
have b1 : (size H + 1 < size (H ++ [:: pc; C'; X]))%N.
  by rewrite size_cat ltn_add2l.
have b2 : (size H + 2 < size (H ++ [:: pc; C'; X]))%N.
  by rewrite size_cat ltn_add2l.
rewrite (@circulant_multiply_st_run (H ++ [:: pc; C'; X])
           (NdArray (size H + 1) _) (NdArray (size H + 2) _) b1 b2).
rewrite !(@load_whole _ _ 1 C') // !(@load_whole _ _ 2 X) //.
rewrite circulant_multiplyE.
by case: ifP => // _; rewrite /ret /= -catA size_cat -addnA.
Qed.

Lemma nth_iota0 n k : (k < n)%N -> nth 0%N (iota 0 n) k = k.
Proof. by move=> kn; rewrite nth_iota. Qed.

Lemma toeplitz_ok_last (r c x y : seq C) :
  toeplitz_multiply_e omega r c x = Ok y ->
  let Y := last [::] (toeplitz_bufs r c x) in
  y = take (size c) Y /\ (size c <= size Y)%N.
Proof.
case: r c => [|r0 r'] [|c0 c'] //; set r := r0 :: r'; set c := c0 :: c'.
rewrite toeplitz_multiply_eE // -/r -/c; cbv zeta; rewrite circulant_multiplyE.
do 2![case: ifP => // _]; case: ifP => // /negbFE/eqP sXC [<-].
rewrite /toeplitz_bufs /circulant_bufs /=; split=> //.
rewrite size_ifft size_mul_seq !size_fft sXC minnn.
by rewrite size_cat size_np_pad add0n -!addnA leq_addr.
Qed.

Lemma toeplitz_ok_size (r c x y : seq C) :
  toeplitz_multiply_e omega r c x = Ok y -> size y = size c.
Proof.
by move/toeplitz_ok_last => /= [-> cY]; rewrite size_takel.
Qed.

Lemma toeplitz_multiply_e_st_spec h r c x :
  (base r < size h)%N -> (base c < size h)%N -> (base x < size h)%N ->
  match toeplitz_multiply_e omega (load h r) (load h c) (load h x) with
  | Raise e => toeplitz_multiply_e_st omega r c x h = Raise e
  | Ok y =>
      exists out bufs,
        [/\ toeplitz_multiply_e_st omega r c x h = Ok (out, h ++ bufs),
            (size h <= base out < size (h ++ bufs))%N
          & load (h ++ bufs) out = y]
  end.
Proof.
move=> rh ch xh; rewrite toeplitz_multiply_e_st_run //.
case E: toeplitz_multiply_e => [y|e] //.
have /= [yY cY] := toeplitz_ok_last E.
eexists; eexists; split; first by reflexivity.
  by rewrite /= leq_addr size_cat ltn_add2l.
by rewrite load_slice_to (@load_whole _ _ 6).
Qed.

Section CztRun.

Variables (H : heap C) (x : ndarray) (M : nat) (W A : C).
Hypothesis xH : (base x < size H)%N.

Local Notation N := (len x).
Local Notation xv := (load H x).
Local Notation fX :=
  (fun k : nat => power_half W (k%:Z ^+ 2) * A ^- k * xv`_k).
Local Notation fr := (fun k : nat => power_half W (- (k%:Z ^+ 2))).

Lemma czt_loop1 (rest : heap C) :
  for_range (iota 0 N) (fun k =>
    xk <- getitem x k ;;
    setitem (NdArray (size H + 0) (iota 0 N)) k
      (power_half W (k%:Z ^+ 2) * A ^- k * xk) ;;
    setitem (NdArray (size H + 1) (iota 0 N)) k
      (power_half W (- (k%:Z ^+ 2))))
    (H ++ [:: mkseq junk N, mkseq junk N & rest]) =
  Ok (tt, H ++ [:: mkseq fX N, mkseq fr N & rest]).
Proof.
pose I k h1 := h1 = H ++ [:: fill fX k (mkseq junk N),
                             fill fr k (mkseq junk N) & rest].
set body := (X in for_range _ X).
have [||h' -> ->] := @for_range_inv _ I body 0 N
    (H ++ [:: mkseq junk N, mkseq junk N & rest]).
- by rewrite /I !fill0.
- move=> k h1 /andP[_ kN] ->; eexists; last by reflexivity.
  rewrite /body /bind_st getitem_in //= setitem_local ?size_iota //=.
  rewrite setitem_local ?size_iota //= !nth_iota0 //.
  by rewrite !set_nth_fill ?size_mkseq.
by rewrite add0n -{1 3}(size_mkseq junk N) !fill_size !size_mkseq.
Qed.

Lemma czt_st_run :
  match czt omega xv M W A with
  | Raise e => czt_st omega junk x M W A H = Raise e
  | Ok y =>
      exists out bufs,
        [/\ czt_st omega junk x M W A H = Ok (out, H ++ bufs),
            (size H <= base out)%N & load (H ++ bufs) out = y]
  end.
Proof.
rewrite /czt_st /bind_st /np_empty -[H in np_array _ H]cats0.
rewrite np_array_local /= np_array_local /= np_array_local /= !size_mkseq.
rewrite czt_loop1 /=.
rewrite (@fill_loop0 _ _ _ 2 M (mkseq junk M) fr) ?size_mkseq //=;
  first by move=> k l' kM _ _ _; rewrite setitem_local ?size_iota // nth_iota0.
set FX := mkseq fX N; set Fr := mkseq fr N; set Fc := mkseq fr M.
have b0 : (size H + 0 < size (H ++ [:: FX; Fr; Fc]))%N.
  by rewrite size_cat ltn_add2l.
have b1 : (size H + 1 < size (H ++ [:: FX; Fr; Fc]))%N.
  by rewrite size_cat ltn_add2l.
have b2 : (size H + 2 < size (H ++ [:: FX; Fr; Fc]))%N.
  by rewrite size_cat ltn_add2l.
rewrite (@toeplitz_multiply_e_st_run (H ++ [:: FX; Fr; Fc])
          (NdArray (size H + 1) _) (NdArray (size H + 2) _)
          (NdArray (size H + 0) _) b1 b2 b0).
have sFX : size FX = N by rewrite size_mkseq.
have sFr : size Fr = N by rewrite size_mkseq.
have sFc : size Fc = M by rewrite size_mkseq.
rewrite -/N !(@load_buf _ _ 0%N FX N) // !(@load_buf _ _ 1%N Fr N) //
        !(@load_buf _ _ 2%N Fc M) //.
rewrite /czt (size_load H x) -/N -/xv -/FX -/Fr -/Fc.
case E: (toeplitz_multiply_e omega Fr Fc FX) => [y|e] //=.
have [yY MY] := toeplitz_ok_last E; move: yY MY.
rewrite /toeplitz_bufs /circulant_bufs /= -catA size_cat -addnA /= sFc.
set Y := ifft _ _; move=> yY MY.
rewrite /slice_to /=.
set l := (X in H ++ X).
rewrite (@fill_loop_prefix _ H l 9 M Y
           (fun k => power_half W (k%:Z ^+ 2) * Y`_k)) //.
  move=> k l' kM l'9 _ _.
  have kt : (k < size (take M (iota 0 (size Y))))%N.
    by rewrite size_takel ?size_iota.
  have kY : (k < size Y)%N by apply: leq_trans MY.
  rewrite /bind_st getitem_local //= setitem_local // nth_take // nth_iota0 //.
  by rewrite l'9 nth_fill_ge.
rewrite /ret /l /=; eexists; eexists; split; first by reflexivity.
  by rewrite /= leq_addr.
have sT : size (take M (iota 0 (size Y))) = M by rewrite size_takel ?size_iota.
rewrite load_local /=; apply: (@eq_from_nth _ 0).
  by rewrite size_map size_mkseq sT.
rewrite size_map sT => k kM; rewrite (nth_map 0%N) ?sT //.
rewrite nth_take // nth_iota0 ?(leq_trans kM) // nth_fill_lt // nth_mkseq //.
by rewrite yY nth_take.
Qed.

End CztRun.

Section IcztRun.

Variables (H : heap C) (X : ndarray) (W A : C).
Hypothesis XH : (base X < size H)%N.

Local Notation Xv := (load H X).

Lemma chirp_prod_fill s :
  fill (chirp_prod W) 1 (set_nth 0 s 0 1) = set_nth 0 s 0 1.
Proof. by case: s => [|s0 s'] //=; rewrite /fill /= drop0. Qed.

Lemma iczt_st_run N :
  match iczt omega Xv N W A with
  | Raise e => iczt_st omega junk X N W A H = Raise e
  | Ok y =>
      exists out bufs,
        [/\ iczt_st omega junk X N W A H = Ok (out, H ++ bufs),
            (size H <= base out)%N & load (H ++ bufs) out = y]
  end.
Proof.
rewrite /iczt_st; case: (eqVneq (len X) N) => [lX|lX]; last first.
  by rewrite /iczt size_load (negbTE lX).
rewrite /= /bind_st /np_empty -[H in np_array _ H]cats0 np_array_local /=.
rewrite !size_mkseq.
set x' := mkseq (fun k => power_half W (- (k%:Z ^+ 2)) * Xv`_k) N.
rewrite (@fill_loop0 _ _ _ 0 N (mkseq junk N)
          (fun k => power_half W (- (k%:Z ^+ 2)) * Xv`_k)) ?size_mkseq //=;
  first by move=> k l' kN _ _ _;
     rewrite /bind_st getitem_in ?lX //= setitem_local ?size_iota // nth_iota0.
rewrite -/x' np_array_local /= size_mkseq.
case: (posnP N) => [N0|Npos].
  by rewrite setitemE /len /= N0 /iczt size_load lX N0.
rewrite icztE ?size_load // -/x'.
rewrite setitem_local ?size_iota //= nth_iota0 //.
set s1 := set_nth 0 (mkseq junk N) 0 1.
have ss1 : size s1 = N.
  by rewrite size_set_nth size_mkseq; apply/maxn_idPr.
rewrite (@fill_loop _ _ _ 1 1 N s1 (chirp_prod W)) ?ss1 ?chirp_prod_fill //=.
  move=> k l' /andP[k0 kN] l'1 _ _.
  have k1N : (k - 1 < N)%N by rewrite (leq_ltn_trans (leq_subr _ _)).
  rewrite /bind_st getitem_local ?size_iota //= setitem_local ?size_iota //.
  have k1k : (k - 1 < k)%N by rewrite subn1 prednK.
  rewrite !nth_iota0 // l'1 (nth_fill_lt _ _ k1k).
  by case: (k) k0 => // k' _; rewrite subn1.
rewrite -ss1 fill_size ss1 -iczt_pE.
rewrite np_array_local /= size_mkseq.
rewrite (@fill_loop0 _ _ _ 2 N (mkseq junk N) (fun k =>
           (-1) ^+ k *
           (power_half W (2 * k%:Z ^+ 2 - (2 * N%:Z - 1) * k%:Z
                          + N%:Z * (N%:Z - 1))
            / ((iczt_p W N)`_(N - k - 1) * (iczt_p W N)`_k))))
        ?size_mkseq //=.
  move=> k l' kN _ l'j _.
  have k1N : (N - k - 1 < N)%N by move: Npos; clear; move=> Npos; nat_lia.
  rewrite /bind_st getitem_local ?size_iota //= getitem_local ?size_iota //=.
  by rewrite setitem_local ?size_iota // !nth_iota0 // (l'j 1%N).
rewrite -iczt_uE; set P := iczt_p W N; set U := iczt_u W N.
have sU : size U = N by rewrite size_iczt_u.
rewrite /np_zeros np_array_local /= np_pad_st_local /=.
rewrite load_np_flip load_slice_from (@load_buf _ _ 2%N U N) //.
rewrite -iczt_uhatE np_pad_st_local /=.
rewrite load_slice_to (@load_buf _ _ 2%N U N) // -iczt_utilE.
rewrite size_nseq size_iczt_uhat ?size_iczt_util ?sU //.
set Z := nseq N 0; set Uh := iczt_uhat U; set Ut := iczt_util U N.
set l6 := [:: x'; P; U; Z; Uh; Ut]; set h0 := H ++ l6.
set xr := NdArray (size H + 0) _; set ur := NdArray (size H + 2) _.
set zr := NdArray (size H + 3) _; set uhr := NdArray (size H + 4) _.
set utr := NdArray (size H + 5) _.
have sh0 : size h0 = (size H + 6)%N by rewrite size_cat.
have bx : (base xr < size h0)%N by rewrite sh0 ltn_add2l.
have bu : (base ur < size h0)%N by rewrite sh0 ltn_add2l.
have bz : (base zr < size h0)%N by rewrite sh0 ltn_add2l.
have buh : (base uhr < size h0)%N by rewrite sh0 ltn_add2l.
have but : (base utr < size h0)%N by rewrite sh0 ltn_add2l.
have lx : load h0 xr = x' by apply: load_buf => //; rewrite size_mkseq.
have lu : load h0 ur = U by apply: load_buf.
have lz : load h0 zr = Z by apply: load_buf => //; rewrite size_nseq.
have luh : load h0 uhr = Uh.
  by apply: load_buf => //; rewrite size_iczt_uhat sU.
have lut : load h0 utr = Ut.
  by apply: load_buf => //; rewrite size_iczt_util ?sU.
have ext h l a : (base a < size h)%N -> (base a < size (h ++ l))%N.
  by move=> ah; rewrite size_cat ltn_addr.
have := toeplitz_multiply_e_st_spec buh bz bx; rewrite luh lz lx.
case E1: toeplitz_multiply_e => [y1|e1] /=; last by move=> ->.
move=> [o1 [B1 [-> /andP[lo1 hi1] ld1]]].
have := toeplitz_multiply_e_st_spec (ext _ B1 _ bz) (ext _ B1 _ buh) hi1.
rewrite (load_cat _ bz) (load_cat _ buh) lz luh ld1.
case E2: toeplitz_multiply_e => [y2|e2] /=; last by move=> ->.
move=> [o2 [B2 [-> /andP[lo2 hi2] ld2]]].
have := toeplitz_multiply_e_st_spec
  (ext _ B2 _ (ext _ B1 _ bu)) (ext _ B2 _ (ext _ B1 _ but))
  (ext _ B2 _ (ext _ B1 _ bx)).
rewrite !(load_cat _ (ext _ B1 _ bu)) !(load_cat _ (ext _ B1 _ but))
  !(load_cat _ (ext _ B1 _ bx)) !(load_cat _ bu) !(load_cat _ but)
  !(load_cat _ bx) lu lut lx.
case E3: toeplitz_multiply_e => [y3|e3] /=; last by move=> ->.
move=> [o3 [B3 [-> /andP[lo3 hi3] ld3]]].
have := toeplitz_multiply_e_st_spec
  (ext _ B3 _ (ext _ B2 _ (ext _ B1 _ but)))
  (ext _ B3 _ (ext _ B2 _ (ext _ B1 _ bu))) hi3.
rewrite !(load_cat _ (ext _ B2 _ (ext _ B1 _ bu)))
  !(load_cat _ (ext _ B2 _ (ext _ B1 _ but)))
  !(load_cat _ (ext _ B1 _ bu)) !(load_cat _ (ext _ B1 _ but))
  !(load_cat _ bu) !(load_cat _ but) lu lut ld3.
case E4: toeplitz_multiply_e => [y4|e4] /=; last by move=> ->.
move=> [o4 [B4 [-> /andP[lo4 hi4] ld4]]].
have sy2 : size y2 = N.
  by rewrite (toeplitz_ok_size E2) size_iczt_uhat sU.
have sy4 : size y4 = N by rewrite (toeplitz_ok_size E4).
pose L := l6 ++ B1 ++ B2 ++ B3 ++ B4.
have hE : (((h0 ++ B1) ++ B2) ++ B3) ++ B4 = H ++ L by rewrite /h0 /L -!catA.
have l2 : load (H ++ L) o2 = y2.
  by rewrite -hE (load_cat _ (ext _ B3 _ hi2)) (load_cat _ hi2).
have l4 : load (H ++ L) o4 = y4 by rewrite -hE.
have fresh b : (size h0 <= b)%N -> b != (size H + 0)%N.
  rewrite sh0 addn0 => hb; rewrite neq_ltn (leq_trans _ hb) ?orbT //.
  by rewrite -addn1 leq_add2l.
have grow h (l : heap C) : (size h <= size (h ++ l))%N.
  by rewrite size_cat leq_addr.
have no2 : base o2 != (size H + 0)%N.
  exact: fresh (leq_trans (grow h0 B1) lo2).
have no4 : base o4 != (size H + 0)%N.
  apply: fresh (leq_trans _ lo4).
  exact: leq_trans (grow h0 B1) (leq_trans (grow _ B2) (grow _ B3)).
have len2 : len o2 = N by rewrite -(size_load (H ++ L)) l2.
have len4 : len o4 = N by rewrite -(size_load (H ++ L)) l4.
pose f k := (y4`_k - y2`_k) / U`_0.
pose g k := A ^+ k * power_half W (- (k%:Z ^+ 2)) * (mkseq f N)`_k.
rewrite hE (@fill_loop0 _ H L 0 N x' f) ?size_mkseq //=.
  move=> k l' kN l'0 l'j sl'.
  rewrite /bind_st getitemE len4 kN /= getitemE len2 kN /=.
  rewrite getitem_local ?size_iota //=.
  rewrite setitem_local ?size_iota // !nth_iota0 //.
  by rewrite (load_frame l'j no4) (load_frame l'j no2) l4 l2 (l'j 2%N).
rewrite (@fill_loop0 _ H _ 0 N (mkseq f N) g) ?size_mkseq //=.
  move=> k l' kN l'0 _ _.
  rewrite /bind_st getitem_local ?size_iota //= setitem_local ?size_iota //.
  by rewrite !nth_iota0 // l'0 nth_fill_ge.
eexists; eexists; split; first by reflexivity.
  by rewrite /= leq_addr.
by rewrite (@load_buf _ _ 0%N (mkseq g N) N) ?size_mkseq.
Qed.

End IcztRun.

(** *** The in-place programs compute the pure functions *)

(** X12: on the store, [circulant_multiply] returns an array holding what the
    pure function returns on the contents of its arguments, and raises the
    same exception when that one raises. *)
Theorem circulant_multiply_st_refines H c x :
  (base c < size H)%N -> (base x < size H)%N ->
  match circulant_multiply_st omega c x H with
  | Ok (out, H') => circulant_multiply omega (load H c) (load H x)
                    = Ok (load H' out)
  | Raise e => circulant_multiply omega (load H c) (load H x) = Raise e
  end.
Proof.
move=> cH xH; rewrite circulant_multiply_st_run // circulant_multiplyE.
by case: ifP => // _; rewrite (@load_whole _ _ 3).
Qed.

(** X13: on the store, [toeplitz_multiply_e], with its views [r[1:]],
    [np.flip] and [Y[:M]], returns an array holding what the pure function
    returns, and raises the same exception when that one raises. *)
Theorem toeplitz_multiply_e_st_refines H r c x :
  (base r < size H)%N -> (base c < size H)%N -> (base x < size H)%N ->
  match toeplitz_multiply_e_st omega r c x H with
  | Ok (out, H') => toeplitz_multiply_e omega (load H r) (load H c) (load H x)
                    = Ok (load H' out)
  | Raise e => toeplitz_multiply_e omega (load H r) (load H c) (load H x)
               = Raise e
  end.
Proof.
move=> rH cH xH; have := toeplitz_multiply_e_st_spec rH cH xH.
case: toeplitz_multiply_e => [y|e]; last by move=> ->.
by move=> [o [B [-> _ ->]]].
Qed.

(** X14: [czt], which fills [np.empty] buffers entry by entry and rescales
    the result of [toeplitz_multiply_e] in place, returns an array holding
    what the pure function returns, whatever the uninitialised buffers held,
    and raises the same exception when that one raises. *)
Theorem czt_st_refines H x M W A :
  (base x < size H)%N ->
  match czt_st omega junk x M W A H with
  | Ok (out, H') => czt omega (load H x) M W A = Ok (load H' out)
  | Raise e => czt omega (load H x) M W A = Raise e
  end.
Proof.
move=> xH; have := czt_st_run M W A xH.
case: czt => [y|e]; last by move=> ->.
by move=> [o [B [-> _ ->]]].
Qed.

(** X15: [iczt], with its three filling loops, the recurrence on [p] and the
    two in-place passes over [x], returns an array holding what the pure
    function returns, whatever the uninitialised buffers held, and raises
    the same exception when that one raises. *)
Theorem iczt_st_refines H X N W A :
  (base X < size H)%N ->
  match iczt_st omega junk X N W A H with
  | Ok (out, H') => iczt omega (load H X) N W A = Ok (load H' out)
  | Raise e => iczt omega (load H X) N W A = Raise e
  end.
Proof.
move=> XH; have := iczt_st_run W A XH N.
case: iczt => [y|e]; last by move=> ->.
by move=> [o [B [-> _ ->]]].
Qed.

(** C9: every public operation that returns leaves every array that existed
    before the call, its arguments among them, element for element as it
    was, and returns an array in a buffer created by the call. *)
Theorem operations_leave_inputs_unchanged H c x r X M N W A :
  (base c < size H)%N -> (base x < size H)%N ->
  (base r < size H)%N -> (base X < size H)%N ->
  [/\ forall out H', circulant_multiply_st omega c x H = Ok (out, H') ->
        unchanged H H' /\ fresh H out,
      forall out H', toeplitz_multiply_e_st omega r c x H = Ok (out, H') ->
        unchanged H H' /\ fresh H out,
      forall out H', czt_st omega junk x M W A H = Ok (out, H') ->
        unchanged H H' /\ fresh H out
    & forall out H', iczt_st omega junk X N W A H = Ok (out, H') ->
        unchanged H H' /\ fresh H out].
Proof.
move=> cH xH rH XH; split=> out H'.
- rewrite circulant_multiply_st_run //; case: ifP => // _ [<- <-].
  by split=> [a aH|]; [exact: load_cat | rewrite /fresh /= leq_addr].
- have := toeplitz_multiply_e_st_spec rH cH xH.
  case: toeplitz_multiply_e => [y|e]; last by move=> ->.
  move=> [o [B [-> /andP[lo _] _]]] [<- <-].
  by split=> // a aH; exact: load_cat.
- have := czt_st_run M W A xH.
  case: czt => [y|e]; last by move=> ->.
  move=> [o [B [-> lo _]]] [<- <-].
  by split=> // a aH; exact: load_cat.
have := iczt_st_run W A XH N.
case: iczt => [y|e]; last by move=> ->.
move=> [o [B [-> lo _]]] [<- <-].
by split=> // a aH; exact: load_cat.
Qed.

End Runs.

Local Close Scope st_scope.

(** ** Instances over the algebraic numbers *)

Lemma omegaC_prim n : (0 < n)%N -> n.-primitive_root (omegaC n).
Proof. by case: n => // n _; rewrite /omegaC; case: C_prim_root_exists. Qed.

Lemma two_neq0 : (2 : algC) != 0.
Proof. by rewrite pnatr_eq0. Qed.

Lemma two_pow_neq1 k : (0 < k < 2)%N -> (2 : algC) ^+ k != 1.
Proof. by case: k => [|[|k]] // _; rewrite expr1 (eqr_nat _ 2 1). Qed.

Lemma iczt_inverts_czt_witness :
  exists2 X, czt omegaC [:: 1; 2] 2 2 1 = Ok X
           & iczt omegaC X 2 2 1 = Ok [:: 1; 2].
Proof.
apply: (@iczt_inverts_czt _ omegaC omegaC_prim [:: 1; 2] 2 2 1) => //.
- exact: two_neq0.
- exact: oner_neq0.
- exact: two_pow_neq1.
Defined.

Lemma czt_is_chirp_z_transform_witness :
  exists2 X, czt omegaC [:: 1; 2] 3 2 1 = Ok X &
    size X = 3 /\
    forall k, (k < 3)%N ->
      X`_k = \sum_(0 <= j < 2) [:: 1; 2]`_j * 1 ^- j * 2 ^+ (j * k).
Proof.
apply: (@czt_is_chirp_z_transform _ omegaC omegaC_prim [:: 1; 2] 3 2 1) => //.
- exact: two_neq0.
- exact: oner_neq0.
Defined.

Lemma toeplitz_multiply_e_is_toeplitz_product_witness :
  exists2 y, toeplitz_multiply_e omegaC [:: 1; 2] [:: 1; 4] [:: 0; 1] = Ok y &
    size y = 2 /\
    forall i, (i < 2)%N ->
      y`_i = \sum_(0 <= j < 2)
               (if (j <= i)%N then [:: 1; 4]`_(i - j) else [:: 1; 2]`_(j - i))
               * [:: 0; 1]`_j.
Proof.
exact: (@toeplitz_multiply_e_is_toeplitz_product _ omegaC omegaC_prim
          [:: 1; 2] [:: 1; 4] [:: 0; 1] isT isT erefl erefl).
Defined.

Lemma circulant_multiply_is_circulant_product_witness :
  exists2 y, circulant_multiply omegaC [:: 1; 2; 3] [:: 1; 0; 0] = Ok y &
    size y = 3 /\
    forall i, (i < 3)%N ->
      y`_i = \sum_(0 <= j < 3)
               circulant_entry [:: 1; 2; 3] i j * [:: 1; 0; 0]`_j.
Proof.
exact: (@circulant_multiply_is_circulant_product _ omegaC omegaC_prim
          [:: 1; 2; 3] [:: 1; 0; 0] isT erefl).
Defined.

Lemma czt_is_dft_witness :
  czt omegaC [:: 1; 2] 2 (omegaC 2) 1 = Ok (fft omegaC [:: 1; 2]).
Proof. exact: (@czt_is_dft _ omegaC omegaC_prim [:: 1; 2] isT). Defined.

Lemma imaginary_parts_differ : (1 + 'i * 2 : algC) != 1 + 'i * 3.
Proof.
apply/eqP => /(congr1 (fun z : algC => 'Im z)).
rewrite !Im_rect ?realn ?real1 // => /eqP.
by rewrite (eqr_nat _ 2 3).
Qed.

(** C7: at [r[0] = 1 + 2i] and [c[0] = 1 + 3i], which differ, the error that
    [toeplitz_multiply_e] raises shows [1] and [1]: the conversion [%f] of
    the message discards the imaginary parts, so the two offending values
    do not reach the caller. *)
Theorem toeplitz_invariant_violation_real_parts :
  toeplitz_multiply_e omegaC [:: 1 + 'i * 2; 2] [:: 1 + 'i * 3; 4] [:: 0; 1] =
  Raise (ToeplitzInvariantViolation 1 1).
Proof.
rewrite toeplitz_multiply_e_violation ?imaginary_parts_differ //=.
by rewrite /format_f !Re_rect ?realn ?real1.
Qed.


(** The product by the matrix with entries [c[i]] on and below the diagonal
    is not what [toeplitz_multiply_e] returns. *)
Lemma toeplitz_spec_entries_counterexample :
  toeplitz_multiply_e omegaC [:: 1; 2] [:: 1; 4] [:: 0; 1] <>
  Ok (dense_mul 2 2 (spec_toeplitz_entry [:: 1; 2] [:: 1; 4]) [:: 0; 1]).
Proof.
rewrite (toeplitz_multiply_e_dense omegaC_prim) //.
move/(congr1 (fun r => if r is Ok s then s`_1 else 0)).
rewrite !nth_dense_mul //.
rewrite !big_nat_recl // !big_nil /toeplitz_entry /spec_toeplitz_entry /=.
rewrite !(mulr0, mulr1, add0r, addr0) => /eqP.
by rewrite (eqr_nat _ 1 4).
Qed.

(** [czt] on the empty sequence returns no sequence at all. *)
Lemma czt_empty_counterexample :
  ~ exists y : seq algC, czt omegaC [::] 0 1 1 = Ok y.
Proof. by case. Qed.

Lemma operations_leave_inputs_unchanged_witness :
  let H : heap algC := [:: [:: 1; 2]] in
  let a := NdArray 0 [:: 0; 1]%N in
  [/\ exists out H', circulant_multiply_st omegaC a a H = Ok (out, H') /\
        unchanged H H' /\ fresh H out,
      exists out H', toeplitz_multiply_e_st omegaC a a a H = Ok (out, H') /\
        unchanged H H' /\ fresh H out,
      exists out H', czt_st omegaC (fun=> 0) a 2 2 1 H = Ok (out, H') /\
        unchanged H H' /\ fresh H out
    & exists out H', iczt_st omegaC (fun=> 0) a 2 2 1 H = Ok (out, H') /\
        unchanged H H' /\ fresh H out].
Proof.
move=> H a.
have aH : (base a < size H)%N by [].
have [t1 t2 t3 t4] :=
  @operations_leave_inputs_unchanged _ omegaC (fun=> 0) H a a a a 2 2 2 1
    aH aH aH aH.
split.
- have E := circulant_multiply_st_run omegaC aH aH.
  rewrite eqxx /= in E.
  by eexists; eexists; split; [exact: E | exact: t1 E].
- have := toeplitz_multiply_e_st_spec omegaC aH aH aH.
  have [y -> _] : exists2 y, toeplitz_multiply_e omegaC (load H a) (load H a)
                      (load H a) = Ok y & size y = size (load H a).
    exact: toeplitz_multiply_e_ok.
  by move=> [o [B [E _ _]]]; exists o, (H ++ B); split=> //; exact: t2 E.
- have := czt_st_run omegaC (fun=> 0) 2 2 1 aH.
  rewrite (czt_direct omegaC_prim) // ?two_neq0 //.
  by move=> [o [B [E _ _]]]; exists o, (H ++ B); split=> //; exact: t3 E.
have := iczt_st_run omegaC (fun=> 0) 2 1 aH 2.
have [y -> _] := @iczt_ok _ omegaC (load H a) 2 2 1 isT (erefl _).
by move=> [o [B [E _ _]]]; exists o, (H ++ B); split=> //; exact: t4 E.
Defined.

Local Close Scope st_scope.

Lemma circulant_multiply_comm_witness :
  circulant_multiply omegaC [:: 1; 2; 3] [:: 4; 5; 6] =
  circulant_multiply omegaC [:: 4; 5; 6] [:: 1; 2; 3].
Proof.
exact: (@circulant_multiply_comm _ omegaC [:: 1; 2; 3] [:: 4; 5; 6] erefl).
Defined.

Lemma circulant_multiply_impulse_witness :
  circulant_multiply omegaC [:: 1; 2; 3] [:: 1; 0; 0] = Ok [:: 1; 2; 3].
Proof.
exact: (@circulant_multiply_impulse _ omegaC omegaC_prim [:: 1; 2; 3] isT).
Defined.

Lemma toeplitz_multiply_e_outcome_witness :
  toeplitz_multiply_e omegaC [:: 1; 2] [:: 1; 4] [:: 0; 1; 0] =
  Raise (LengthMismatch 3 2).
Proof.
have := @toeplitz_multiply_e_outcome _ omegaC omegaC_prim
          [:: 1; 2] [:: 1; 4] [:: 0; 1; 0].
by rewrite /= eqxx.
Defined.

Lemma iczt_outcome_witness :
  exists2 y, iczt omegaC [:: 1; 2] 2 2 1 = Ok y & size y = 2.
Proof.
exact: (@iczt_outcome _ omegaC [:: 1; 2] 2 2 1 two_pow_neq1).
Defined.

Lemma next_pow2_bounds_witness : (5 <= next_pow2 5 < 2 * 5)%N.
Proof.
by have [_ -> /(_ isT) ->] := next_pow2_bounds 5.
Defined.


Lemma czt_conjugate_kernel_witness :
  czt omegaC [:: 1; 2] 2 (omegaC 2)^-1 1 =
  Ok (mkseq (fun k => 2%:R * (ifft omegaC [:: 1; 2])`_k) 2).
Proof.
exact: (@czt_conjugate_kernel _ omegaC omegaC_prim [:: 1; 2] isT).
Defined.

Lemma czt_inverts_iczt_witness :
  exists2 x, iczt omegaC [:: 1; 2] 2 2 1 = Ok x
           & czt omegaC x 2 2 1 = Ok [:: 1; 2].
Proof.
apply: (@czt_inverts_iczt _ omegaC omegaC_prim [:: 1; 2] 2 2 1) => //.
- exact: two_neq0.
- exact: oner_neq0.
- exact: two_pow_neq1.
Defined.

Lemma iczt_u_inverse_column_witness :
  \sum_(0 <= k < 2)
     power_half (2 : algC) (- (1%:Z - k%:Z) ^+ 2) * (iczt_u 2 2)`_k = 0.
Proof.
exact: (@iczt_u_inverse_column _ 2 2 1 two_neq0 two_pow_neq1 isT).
Defined.

Local Open Scope st_scope.

Lemma circulant_multiply_st_refines_witness :
  let H : heap algC := [:: [:: 1; 2]; [:: 3; 4]] in
  match circulant_multiply_st omegaC (NdArray 0 [:: 0; 1]%N)
          (NdArray 1 [:: 0; 1]%N) H with
  | Ok (out, H') => circulant_multiply omegaC [:: 1; 2] [:: 3; 4]
                    = Ok (load H' out)
  | Raise e => circulant_multiply omegaC [:: 1; 2] [:: 3; 4] = Raise e
  end.
Proof.
exact: (@circulant_multiply_st_refines _ omegaC [:: [:: 1; 2]; [:: 3; 4]]
          (NdArray 0 [:: 0; 1]%N) (NdArray 1 [:: 0; 1]%N) isT isT).
Defined.

Lemma toeplitz_multiply_e_st_refines_witness :
  let H : heap algC := [:: [:: 1; 2]; [:: 1; 4]; [:: 0; 1]] in
  match toeplitz_multiply_e_st omegaC (NdArray 0 [:: 0; 1]%N)
          (NdArray 1 [:: 0; 1]%N) (NdArray 2 [:: 0; 1]%N) H with
  | Ok (out, H') =>
      toeplitz_multiply_e omegaC [:: 1; 2] [:: 1; 4] [:: 0; 1]
      = Ok (load H' out)
  | Raise e =>
      toeplitz_multiply_e omegaC [:: 1; 2] [:: 1; 4] [:: 0; 1] = Raise e
  end.
Proof.
exact: (@toeplitz_multiply_e_st_refines _ omegaC
          [:: [:: 1; 2]; [:: 1; 4]; [:: 0; 1]]
          (NdArray 0 [:: 0; 1]%N) (NdArray 1 [:: 0; 1]%N)
          (NdArray 2 [:: 0; 1]%N) isT isT isT).
Defined.

Lemma czt_st_refines_witness :
  let H : heap algC := [:: [:: 1; 2]] in
  match czt_st omegaC (fun=> 7) (NdArray 0 [:: 0; 1]%N) 3 2 1 H with
  | Ok (out, H') => czt omegaC [:: 1; 2] 3 2 1 = Ok (load H' out)
  | Raise e => czt omegaC [:: 1; 2] 3 2 1 = Raise e
  end.
Proof.
exact: (@czt_st_refines _ omegaC (fun=> 7) [:: [:: 1; 2]]
          (NdArray 0 [:: 0; 1]%N) 3 2 1 isT).
Defined.

Lemma iczt_st_refines_witness :
  let H : heap algC := [:: [:: 1; 2]] in
  match iczt_st omegaC (fun=> 7) (NdArray 0 [:: 0; 1]%N) 2 2 1 H with
  | Ok (out, H') => iczt omegaC [:: 1; 2] 2 2 1 = Ok (load H' out)
  | Raise e => iczt omegaC [:: 1; 2] 2 2 1 = Raise e
  end.
Proof.
exact: (@iczt_st_refines _ omegaC (fun=> 7) [:: [:: 1; 2]]
          (NdArray 0 [:: 0; 1]%N) 2 2 1 isT).
Defined.
